(** * Benthos: the Redis processor and the output constructor registry

    A shallow embedding of [lib/processor/redis.go] and
    [output/constructor.go].  Go values that may be [nil] are [option]s, a Go
    multiple return [(T, error)] is a pair, [int] and [int64] are [Z] with the
    64-bit wrap-around written out where the code increments, and the effects
    of the code (remote calls, sleeping, counters, logging, the message store)
    are threaded through an explicit [World]. *)

From Stdlib Require Import ZArith Lia List Bool DecimalString.
From Stdlib Require Import Strings.Ascii Strings.String Strings.Byte.
From stdpp Require Import base option list gmap strings.

Local Open Scope Z_scope.

(** ** Basic Go types *)

(** [[]byte]; a [nil] slice is [None] where the code distinguishes it. *)
Definition bytes := list Byte.byte.

(** An [error] value is its message; [nil] is [None]. *)
Definition error := string.

(** [time.Duration]: nanoseconds as a signed 64-bit integer. *)
Definition Duration := Z.

Definition max_int64 : Z := 2 ^ 63 - 1.
Definition min_int64 : Z := - 2 ^ 63.

(** Two's complement wrap-around of Go's [int] ([i++]). *)
Definition wrap64 (z : Z) : Z := (z + 2 ^ 63) mod 2 ^ 64 - 2 ^ 63.

(** [strconv.AppendInt(dst, i, 10)]. *)
Definition AppendInt (dst : option bytes) (i : Z) : bytes :=
  default [] dst ++ list_byte_of_string (NilEmpty.string_of_int (Z.to_int i)).

(** [fmt.Errorf(prefix + "%v", x)] where [x] prints as [s]. *)
Definition Errorf (prefix s : string) : error := String.append prefix s.

(** ** The remote client *)

(** The two remote calls the processor issues. *)
Inductive Cmd :=
| CmdSCard (key : string)
| CmdSAdd (key : string) (value : bytes).

(** [redis.UniversalClient], as far as the processor uses it: the answer
    [(res, err)] to the [n]-th call issued so far, and how [Close] behaves. *)
Record Client := mkClient {
  respond : nat -> Cmd -> Z * option error;
  closeLatency : Duration;
  closeResult : option error
}.

(** ** Messages (batches) and parts *)

(** A part: payload, metadata, and the error recorded against it. *)
Record Part := mkPart {
  payload : bytes;
  metadata : gmap string string;
  failed : option error
}.

(** The message store: an append-only arena of parts and, per message
    handle, the list of arena indices of its parts. *)
Record Store := mkStore {
  arena : list Part;
  batches : list (list nat)
}.

(** A [types.Message] is a handle into the store. *)
Definition Message := nat.

(** ** The world the processor runs in *)

(** What the tracing collaborator is asked to do. *)
Inductive SpanEvent :=
| SpanStart (label : string) (index : nat)
| SpanFinish (label : string) (index : nat).

Record World := mkWorld {
  clock : Z;
  issued : list Cmd;
  logged : list string;
  counters : gmap string Z;
  spans : list SpanEvent;
  clientClosed : bool;
  store : Store
}.

Definition set_clock (w : World) (t : Z) : World :=
  mkWorld t (issued w) (logged w) (counters w) (spans w) (clientClosed w) (store w).
Definition set_issued (w : World) (l : list Cmd) : World :=
  mkWorld (clock w) l (logged w) (counters w) (spans w) (clientClosed w) (store w).
Definition set_logged (w : World) (l : list string) : World :=
  mkWorld (clock w) (issued w) l (counters w) (spans w) (clientClosed w) (store w).
Definition set_counters (w : World) (c : gmap string Z) : World :=
  mkWorld (clock w) (issued w) (logged w) c (spans w) (clientClosed w) (store w).
Definition set_spans (w : World) (l : list SpanEvent) : World :=
  mkWorld (clock w) (issued w) (logged w) (counters w) l (clientClosed w) (store w).
Definition set_clientClosed (w : World) (b : bool) : World :=
  mkWorld (clock w) (issued w) (logged w) (counters w) (spans w) b (store w).
Definition set_store (w : World) (s : Store) : World :=
  mkWorld (clock w) (issued w) (logged w) (counters w) (spans w) (clientClosed w) s.

(** [metrics.StatCounter]: a named counter of the metrics backend. *)
Definition StatCounter := string.

Definition counter (w : World) (c : StatCounter) : Z :=
  default 0 (counters w !! c).

(** [c.Incr(n)]. *)
Definition Incr (c : StatCounter) (n : Z) (w : World) : World :=
  set_counters w (<[c := counter w c + n]> (counters w)).

(** [log.Errorf] / [log.Debugf]. *)
Definition Logf (line : string) (w : World) : World :=
  set_logged w (logged w ++ [line]).

(** [<-time.After(d)]: the timer fires after [d], at once when [d <= 0]. *)
Definition After (d : Duration) (w : World) : World :=
  set_clock w (clock w + Z.max 0 d).

(** One remote call: the client answers the next call and the call is
    recorded as issued. *)
Definition call (c : Client) (cmd : Cmd) (w : World) : (Z * option error) * World :=
  (respond c (length (issued w)) cmd, set_issued w (issued w ++ [cmd])).

(** ** Message operations

    [types.Message], [types.Part] and [IteratePartsWithSpan] are declared
    outside the two files; [redis.go] only calls them. *)

(** Modelled from the spec: the handle list of a batch ([lib/message] is
    missing); a batch is an ordered sequence of parts. *)
Definition handles (m : Message) (s : Store) : option (list nat) :=
  batches s !! m.

(** Modelled from the spec: [part_count(batch)], the missing [Message.Len]. *)
Definition Len (m : Message) (s : Store) : option nat :=
  length <$> handles m s.

(** Modelled from the spec: [duplicate(batch)], the missing [Message.Copy]:
    a new handle list that shares the parts of the original. *)
Definition Copy (m : Message) (s : Store) : option (Message * Store) :=
  hs ← handles m s;
  Some (length (batches s), mkStore (arena s) (batches s ++ [hs])).

(** Modelled from the spec: the part of a batch at an index; [None] is the
    fatal out-of-range access. *)
Definition get_part (m : Message) (i : nat) (s : Store) : option Part :=
  hs ← handles m s; h ← hs !! i; arena s !! h.

(** Modelled from the spec: mutation of one part of a batch copies that part
    (a fresh arena cell) and repoints the batch's own handle at it. *)
Definition put_part (m : Message) (i : nat) (p : Part) (s : Store) : option Store :=
  hs ← handles m s;
  if decide (i < length hs)%nat
  then Some (mkStore (arena s ++ [p]) (<[m := <[i := length (arena s)]> hs]> (batches s)))
  else None.

(** Modelled from the spec: [get_payload(batch, index)], the missing [Part.Get]. *)
Definition Get (m : Message) (i : nat) (s : Store) : option bytes :=
  payload <$> get_part m i s.

(** Modelled from the spec: [set_payload(batch, index, bytes)], the missing
    [Part.Set]. *)
Definition Set_ (m : Message) (i : nat) (b : bytes) (s : Store) : option Store :=
  p ← get_part m i s; put_part m i (mkPart b (metadata p) (failed p)) s.

(** Modelled from the spec: a failure of [fn] is recorded against the part
    (the missing [FlagErr]). *)
Definition FlagErr (m : Message) (i : nat) (e : error) (s : Store) : option Store :=
  p ← get_part m i s; put_part m i (mkPart (payload p) (metadata p) (Some e)) s.

(** The parts of a batch, in order. *)
Definition view (m : Message) (s : Store) : option (list Part) :=
  hs ← handles m s; mapM (λ h, arena s !! h) hs.

(** Modelled from the spec: the indices [iterate_with_tracing] visits: all
    of them when [target_indices] is empty, otherwise the in-range ones, in
    ascending order, each once. *)
Definition targeted (parts : list Z) (n : nat) : list nat :=
  List.filter
    (λ i, match parts with [] => true | _ => bool_decide (Z.of_nat i ∈ parts) end)
    (seq 0 n).

(** Modelled from the spec: the visit of the targeted indices: open a span,
    call [fn], record a failure against the part, close the span, go on. *)
Fixpoint iterate_parts (operationName : string) (idxs : list nat) (msg : Message)
    (fn : nat -> World -> option (option error * World)) (w : World)
    : option (list (nat * option error) * World) :=
  match idxs with
  | [] => Some ([], w)
  | i :: rest =>
      let w1 := set_spans w (spans w ++ [SpanStart operationName i]) in
      '(err, w2) ← fn i w1;
      w3 ← match err with
           | Some e => set_store w2 <$> FlagErr msg i e (store w2)
           | None => Some w2
           end;
      let w4 := set_spans w3 (spans w3 ++ [SpanFinish operationName i]) in
      '(outs, w5) ← iterate_parts operationName rest msg fn w4;
      Some ((i, err) :: outs, w5)
  end.

(** Modelled from the spec: [iterate_with_tracing], the missing
    [IteratePartsWithSpan]; the aggregate result lists, per visited index,
    the error [fn] returned. *)
Definition IteratePartsWithSpan (operationName : string) (parts : list Z)
    (msg : Message) (fn : nat -> World -> option (option error * World))
    (w : World) : option (list (nat * option error) * World) :=
  n ← Len msg (store w);
  iterate_parts operationName (targeted parts n) msg fn w.

(** ** Configuration and the processor ([redis.go]) *)

(** [bredis.Config], the embedded connection settings. *)
Record bredis_Config := mkBredisConfig {
  URL : string;
  Kind : string;
  Master : string
}.

(** [*field.Expression]: a compiled key expression is what its [String]
    method answers for a part index and the parts of a message. *)
Record Expression := mkExpression {
  Expression_String : nat -> list Part -> string
}.

(** The collaborators [NewRedis] calls that live outside the two files:
    [bredis.Config.Client], [time.ParseDuration] and [bloblang.NewField]. *)
Record Env := mkEnv {
  bredis_Client : bredis_Config -> Client + error;
  ParseDuration : string -> Duration + error;
  NewField : string -> Expression + error
}.

(** [RedisConfig]. *)
Record RedisConfig := mkRedisConfig {
  RConfig : bredis_Config;
  Parts : list Z;
  Operator : string;
  Key : string;
  Retries : Z;
  RetryPeriod : string
}.

(** [Config], the processor configuration, as far as this processor reads it. *)
Record Config := mkConfig {
  cType : string;
  cRedis : RedisConfig
}.

Definition TypeRedis : string := "redis".

(** [redisOperator] is a Go function value taking the processor itself; the
    two closures the code can build are the two constructors, and
    [apply_operator] below is their application. *)
Inductive redisOperator :=
| OpSCard
| OpSAdd.

(** [Redis], the processor. *)
Record Redis := mkRedis {
  parts : list Z;
  conf : Config;
  key : Expression;
  operator : redisOperator;
  client : Client;
  retryPeriod : Duration;
  mCount : StatCounter;
  mErr : StatCounter;
  mSent : StatCounter;
  mBatchSent : StatCounter;
  mRedisRetry : StatCounter
}.

(** The line both operators log before a retry. *)
Definition retry_log_line (e : error) : string :=
  String.append (Errorf "SCard command failed: " e) (String "010"%char EmptyString).

(** The retry loop of both operators (lines 173-178 and 191-196):
    [for i := 0; i <= r.conf.Redis.Retries && err != nil; i++ { ... }].
    [fuel] bounds the number of times the guard is evaluated. *)
Fixpoint retry_loop (fuel : nat) (r : Redis) (cmd : Cmd)
    (i : Z) (res : Z) (err : option error) (w : World)
    : option ((Z * option error) * World) :=
  match fuel with
  | O => None
  | S fuel' =>
      match err with
      | Some e =>
          if i <=? Retries (cRedis (conf r)) then
            let w1 := Logf (retry_log_line e) w in
            let w2 := After (retryPeriod r) w1 in
            let w3 := Incr (mRedisRetry r) 1 w2 in
            let '((res', err'), w4) := call (client r) cmd w3 in
            retry_loop fuel' r cmd (wrap64 (i + 1)) res' err' w4
          else Some ((res, err), w)
      | None => Some ((res, err), w)
      end
  end.

(** The body shared by the two closures: first call, retry loop, result. *)
Definition operator_body (fuel : nat) (r : Redis) (cmd : Cmd) (w : World)
    : option ((option bytes * option error) * World) :=
  let '((res, err), w0) := call (client r) cmd w in
  match retry_loop fuel r cmd 0 res err w0 with
  | None => None
  | Some ((res', err'), w') =>
      match err' with
      | Some e => Some ((None, Some e), w')
      | None => Some ((Some (AppendInt None res'), None), w')
      end
  end.

(** The world after one pass through the loop body. *)
Definition retried (r : Redis) (cmd : Cmd) (e : error) (w : World) : World :=
  snd (call (client r) cmd
         (Incr (mRedisRetry r) 1 (After (retryPeriod r) (Logf (retry_log_line e) w)))).

(** What an operator returns for the answer to its last call (lines 180-183
    and 198-201). *)
Definition operator_result (a : Z * option error) : option bytes * option error :=
  match snd a with
  | Some e => (None, Some e)
  | None => (Some (AppendInt None (fst a)), None)
  end.

(** The closure returned by [newRedisSCardOperator]. *)
Definition newRedisSCardOperator (fuel : nat) (r : Redis) (key : string)
    (value : bytes) (w : World) : option ((option bytes * option error) * World) :=
  operator_body fuel r (CmdSCard key) w.

(** The closure returned by [newRedisSAddOperator]. *)
Definition newRedisSAddOperator (fuel : nat) (r : Redis) (key : string)
    (value : bytes) (w : World) : option ((option bytes * option error) * World) :=
  operator_body fuel r (CmdSAdd key value) w.

(** The command an operator issues for a key and a value. *)
Definition operator_cmd (op : redisOperator) (key : string) (value : bytes) : Cmd :=
  match op with
  | OpSCard => CmdSCard key
  | OpSAdd => CmdSAdd key value
  end.

(** [r.operator(r, key, value)]. *)
Definition apply_operator (op : redisOperator) (fuel : nat) (r : Redis)
    (key : string) (value : bytes) (w : World)
    : option ((option bytes * option error) * World) :=
  match op with
  | OpSCard => newRedisSCardOperator fuel r key value w
  | OpSAdd => newRedisSAddOperator fuel r key value w
  end.

(** [getRedisOperator]. *)
Definition getRedisOperator (opStr : string) : option redisOperator * option error :=
  if String.eqb opStr "sadd" then (Some OpSAdd, None)
  else if String.eqb opStr "scard" then (Some OpSCard, None)
  else (None, Some (Errorf "operator not recognised: " opStr)).

(** [NewRedis] once the retry period is settled (lines 131-162). *)
Definition NewRedis_rest (env : Env) (conf : Config) (retryPeriod : Duration)
    : option Redis * option error :=
  match bredis_Client env (RConfig (cRedis conf)) with
  | inr err => (None, Some err)
  | inl client =>
      match NewField env (Key (cRedis conf)) with
      | inr err => (None, Some (Errorf "failed to parse key expression: " err))
      | inl key =>
          match getRedisOperator (Operator (cRedis conf)) with
          | (Some op, None) =>
              (Some (mkRedis (Parts (cRedis conf)) conf key op client retryPeriod
                       "count" "error" "sent" "batch.sent" "redis.retry"),
               None)
          | (_, err) => (None, err)
          end
      end
  end.

(** [NewRedis]. *)
Definition NewRedis (env : Env) (conf : Config) : option Redis * option error :=
  let tout := RetryPeriod (cRedis conf) in
  if (0 <? String.length tout)%nat then
    match ParseDuration env tout with
    | inr err => (None, Some (Errorf "failed to parse retry period string: " err))
    | inl retryPeriod => NewRedis_rest env conf retryPeriod
    end
  else NewRedis_rest env conf 0.

(** [types.Response]; [nil] is [None]. *)
Record Response := mkResponse {
  resp_err : option error;
  resp_skipAck : bool
}.

(** The line [proc] logs when the operator failed. *)
Definition proc_log_line (key : string) (e : error) : string :=
  String.append "Operator failed for key '"
    (String.append key
       (String.append "': " (String.append e (String "010"%char EmptyString)))).

(** The closure [proc] of [ProcessMessage] (lines 221-231); the part handed
    to it is the part of [newMsg] at [index]. *)
Definition proc (fuel : nat) (r : Redis) (newMsg : Message) (index : nat)
    (w : World) : option (option error * World) :=
  let key := Expression_String (key r) index (default [] (view newMsg (store w))) in
  value ← Get newMsg index (store w);
  '((res, err), w1) ← apply_operator (operator r) fuel r key value w;
  match err with
  | Some e =>
      let w2 := Incr (mErr r) 1 w1 in
      Some (Some e, Logf (proc_log_line key e) w2)
  | None =>
      s' ← Set_ newMsg index (default [] res) (store w1);
      Some (None, set_store w1 s')
  end.

(** [ProcessMessage]. *)
Definition ProcessMessage (fuel : nat) (r : Redis) (msg : Message) (w : World)
    : option ((list Message * option Response) * World) :=
  let w1 := Incr (mCount r) 1 w in
  '(newMsg, s1) ← Copy msg (store w1);
  let w2 := set_store w1 s1 in
  '(_, w3) ← IteratePartsWithSpan TypeRedis (parts r) newMsg (proc fuel r newMsg) w2;
  let w4 := Incr (mBatchSent r) 1 w3 in
  n ← Len newMsg (store w4);
  let w5 := Incr (mSent r) (Z.of_nat n) w4 in
  Some (([newMsg], None), w5).

(** [CloseAsync]: the body is empty. *)
Definition CloseAsync (r : Redis) (w : World) : World := w.

(** [WaitForClose]: [r.client.Close()] runs to completion, its error is
    dropped, and [nil] is returned; [timeout] is not read. *)
Definition WaitForClose (r : Redis) (timeout : Duration) (w : World)
    : option error * World :=
  let w1 := set_clock w (clock w + Z.max 0 (closeLatency (client r))) in
  (None, set_clientClosed w1 true).

(** ** The retry loop, step by step, next to a goroutine that closes

    The same operator body as [operator_body], cut at the points where
    another goroutine can run: before the loop condition is evaluated and
    while the loop is blocked on [<-time.After(r.retryPeriod)]. *)

Inductive OpState :=
| AtGuard (i : Z) (res : Z) (err : option error)
| Sleeping (i : Z) (remaining : Duration)
| Returned (out : option bytes * option error).

(** What can happen next: the operator's goroutine runs up to its next cut
    point, one unit of time passes, or another goroutine calls [CloseAsync]. *)
Inductive Event :=
| EvRun
| EvTick
| EvClose.

Record Sys := mkSys {
  sys_world : World;
  sys_op : OpState;
  closeRequested : bool
}.

(** The operator's goroutine up to its next cut point. *)
Definition op_run (r : Redis) (cmd : Cmd) (st : OpState) (w : World)
    : OpState * World :=
  match st with
  | AtGuard i res (Some e) =>
      if i <=? Retries (cRedis (conf r))
      then (Sleeping i (Z.max 0 (retryPeriod r)), Logf (retry_log_line e) w)
      else (Returned (None, Some e), w)
  | AtGuard i res None => (Returned (Some (AppendInt None res), None), w)
  | Sleeping i remaining =>
      if remaining <=? 0 then
        let w3 := Incr (mRedisRetry r) 1 w in
        let '((res', err'), w4) := call (client r) cmd w3 in
        (AtGuard (wrap64 (i + 1)) res' err', w4)
      else (st, w)
  | Returned out => (st, w)
  end.

(** One unit of time passes: the clock advances and a pending timer runs down. *)
Definition op_tick (st : OpState) : OpState :=
  match st with
  | Sleeping i remaining => Sleeping i (Z.max 0 (remaining - 1))
  | _ => st
  end.

Definition sys_step (r : Redis) (cmd : Cmd) (ev : Event) (s : Sys) : Sys :=
  match ev with
  | EvRun =>
      let '(st, w) := op_run r cmd (sys_op s) (sys_world s) in
      mkSys w st (closeRequested s)
  | EvTick =>
      mkSys (set_clock (sys_world s) (clock (sys_world s) + 1))
            (op_tick (sys_op s)) (closeRequested s)
  | EvClose => mkSys (CloseAsync r (sys_world s)) (sys_op s) true
  end.

Definition sys_run (r : Redis) (cmd : Cmd) (evs : list Event) (s : Sys) : Sys :=
  fold_left (λ s ev, sys_step r cmd ev s) evs s.

(** The operator is invoked: the first call is issued (lines 171 and 189). *)
Definition sys_start (r : Redis) (cmd : Cmd) (w : World) : Sys :=
  let '((res, err), w0) := call (client r) cmd w in
  mkSys w0 (AtGuard 0 res err) false.

Definition is_close (ev : Event) : bool :=
  match ev with EvClose => true | _ => false end.

(** ** The output constructor registry ([output/constructor.go]) *)

Module output.
Section Registry.

(** [Type], the output interface, [ZMQ4Config], and the sentinel
    [types.ErrInvalidOutputType] are declared outside the file. *)
Variable OutputType : Type.
Variable ZMQ4Config : Type.
Variable ErrInvalidOutputType : error.

(** [Config]. *)
Record Config := mkConfig {
  Type_ : string;
  ZMQ4 : option ZMQ4Config
}.

(** The type of the package variable [constructors]. *)
Definition Constructors := gmap string (Config -> option OutputType * option error).

(** [Construct], reading the package variable [constructors]. *)
Definition Construct (constructors : Constructors) (conf : Config)
    : option OutputType * option error :=
  match constructors !! Type_ conf with
  | Some c => c conf
  | None => (None, Some ErrInvalidOutputType)
  end.

End Registry.
End output.

(** ** Defaults and documentation of the processor ([redis.go]) *)

(** [NewRedisConfig]; the value of [bredis.NewConfig()] is handed in. *)
Definition NewRedisConfig (bc : bredis_Config) : RedisConfig :=
  mkRedisConfig bc [] "scard" "" 3 "500ms".

(** The options [init] documents for the [operator] field (line 43). *)
Definition operator_options : list string := ["scard"; "sadd"].

(** The retry period is settled: the string is empty, or it parses. *)
Definition period_settled (env : Env) (conf : Config) (d : Duration) : Prop :=
  RetryPeriod (cRedis conf) = "" /\ d = 0 \/
  RetryPeriod (cRedis conf) <> "" /\ ParseDuration env (RetryPeriod (cRedis conf)) = inl d.

(** ** Defaults and registration of outputs ([output/constructor.go]) *)

Section OutputDefaults.

Variable OutputType : Type.
Variable ZMQ4Config : Type.

(** The value the package variable [constructors] is declared with (line 29). *)
Definition output_constructors : output.Constructors OutputType ZMQ4Config := ∅.

(** [NewConfig]; the pointer [NewZMQ4Config()] returns is handed in. *)
Definition output_NewConfig (zmq4 : option ZMQ4Config) : output.Config ZMQ4Config :=
  output.mkConfig ZMQ4Config "stdout" zmq4.

(** An assignment [constructors[name] = c], the way a type registers. *)
Definition output_register (name : string)
    (c : output.Config ZMQ4Config -> option OutputType * option error)
    (reg : output.Constructors OutputType ZMQ4Config)
    : output.Constructors OutputType ZMQ4Config :=
  <[name := c]> reg.

End OutputDefaults.

(** ** The ZMQ producer ([test/zmq/benthos_zmq_producer/main.go]) *)

Module producer.

(** What [main] asks of the flag, time, strconv, zmq4 and rand packages. *)
Record Env := mkEnv {
  ParseDuration : string -> Duration + error;
  Atoi : string -> Z + error;
  NewContext : option error;
  NewSocket : option error;
  Connect : string -> option error;
  rand_Int : nat -> Z;
  MarshalBinary : Z -> bytes + error;
  SendMessage : list bytes -> option error
}.

(** How the set-up part of [main] ends when it does not go on. *)
Inductive Exit :=
| Return
| Panic (e : error).

(** What the sending goroutine works with. *)
Record Running := mkRunning {
  address : string;
  interval : Duration;
  dataBlob : bytes
}.

Definition newline : string := String "010"%char EmptyString.

(** The two [fmt.Println] lines (lines 49-50). *)
Definition banner : list string :=
  [String.append "This is a benchmarking utility for benthos." newline;
   String.append "Make sure you are running benthos with the ./test/zmq.yaml config." newline].

(** The two [fmt.Printf] lines of the usage message (lines 53-54). *)
Definition usage (prog : string) : list string :=
  [String.append newline
     (String.append "Usage: "
        (String.append prog (String.append " <interval> <blob_size>" newline)));
   String.append "e.g.: " (String.append prog (String.append " 10us 1024" newline))].

(** [byte(x)] of an [int]: the low eight bits. *)
Definition byte_of_Z (x : Z) : Byte.byte :=
  default "000"%byte (Byte.of_N (Z.to_N (x mod 256))).

(** [main] down to the start of the goroutine (lines 43-87): what is
    printed, and either how [main] ends or what the goroutine is given.
    [make([]byte, blobSize)] panics on a negative length. *)
Definition main_setup (env : Env) (prog addr : string) (args : list string)
    : list string * (Exit + Running) :=
  if negb (length args =? 2)%nat then (banner ++ usage prog, inl Return)
  else
    match ParseDuration env (nth 0 args "") with
    | inr err => (banner, inl (Panic err))
    | inl interval =>
        match Atoi env (nth 1 args "") with
        | inr err => (banner, inl (Panic err))
        | inl blobSize =>
            match NewContext env with
            | Some err => (banner, inl (Panic err))
            | None =>
                match NewSocket env with
                | Some err => (banner, inl (Panic err))
                | None =>
                    let _ := Connect env addr in
                    if blobSize <? 0
                    then (banner, inl (Panic "runtime error: makeslice: len out of range"))
                    else (banner,
                          inr (mkRunning addr interval
                                 (map (λ i, byte_of_Z (rand_Int env i))
                                      (seq 0 (Z.to_nat blobSize)))))
                end
            end
        end
    end.

(** The sending goroutine (lines 89-103), cut where the other goroutine
    and the clock can come in: before [atomic.LoadInt32(&running)], and
    while blocked on [<-time.After(interval)]. *)
Inductive SenderPC :=
| AtLoad
| Asleep (remaining : Duration)
| Exited
| Crashed (e : error).

Record State := mkState {
  pc : SenderPC;
  running : bool;
  now : Z;
  sent : list (list bytes)
}.

(** The goroutine runs to its next cut point, a unit of time passes, or
    [main] executes [atomic.StoreInt32(&running, 0)] (line 113). *)
Inductive Event :=
| EvSender
| EvTick
| EvStop.

Definition step (env : Env) (g : Running) (ev : Event) (st : State) : State :=
  match ev with
  | EvSender =>
      match pc st with
      | AtLoad =>
          if running st
          then mkState (Asleep (Z.max 0 (interval g))) (running st) (now st) (sent st)
          else mkState Exited (running st) (now st) (sent st)
      | Asleep remaining =>
          if remaining <=? 0 then
            match MarshalBinary env (now st) with
            | inr err => mkState (Crashed err) (running st) (now st) (sent st)
            | inl nowBytes =>
                match SendMessage env [nowBytes; dataBlob g] with
                | Some err => mkState (Crashed err) (running st) (now st) (sent st)
                | None =>
                    mkState AtLoad (running st) (now st)
                      (sent st ++ [[nowBytes; dataBlob g]])
                end
            end
          else st
      | Exited => st
      | Crashed _ => st
      end
  | EvTick =>
      mkState (match pc st with
               | Asleep remaining => Asleep (Z.max 0 (remaining - 1))
               | other => other
               end) (running st) (now st + 1) (sent st)
  | EvStop => mkState (pc st) false (now st) (sent st)
  end.

Definition run (env : Env) (g : Running) (evs : list Event) (st : State) : State :=
  fold_left (λ st ev, step env g ev st) evs st.

(** The goroutine is started with [running = 1] (line 87). *)
Definition start : State := mkState AtLoad true 0 [].

(** A message the goroutine may still owe when asked to stop. *)
Definition owed (st : State) : nat :=
  match pc st with Asleep _ => 1 | _ => 0 end.

(** The part of the current interval that has been waited. *)
Definition waited (g : Running) (st : State) : Z :=
  match pc st with
  | Asleep remaining => Z.max 0 (interval g) - remaining
  | _ => 0
  end.

End producer.

(** ** Invariants used below *)

(** Every handle of every batch points into the arena. *)
Definition wf_store (s : Store) : Prop :=
  forall m hs h, handles m s = Some hs -> h ∈ hs -> (h < length (arena s))%nat.

(** What a stage working on the batch [m] may do to the store: grow the
    arena, and repoint handles of [m] only. *)
Definition frame (m : Message) (s s' : Store) : Prop :=
  (exists l, arena s' = arena s ++ l) /\
  (forall m0, m0 <> m -> handles m0 s' = handles m0 s) /\
  Len m s' = Len m s.

(** The counter of per-part errors is not one of the other counters. *)
Definition distinct_counters (r : Redis) : Prop :=
  mErr r <> mCount r /\ mErr r <> mSent r /\
  mErr r <> mBatchSent r /\ mErr r <> mRedisRetry r.

(** Enough fuel for every retry loop of a processor whose [Retries] is below
    the largest [int]. *)
Definition fuel_ok (r : Redis) (fuel : nat) : Prop :=
  Retries (cRedis (conf r)) < max_int64 /\
  (Z.to_nat (Retries (cRedis (conf r)) + 1) < fuel)%nat.

(** The number of parts whose visit reported an error. *)
Definition count_failed (outs : list (nat * option error)) : nat :=
  length (List.filter (λ o, bool_decide (is_Some (snd o))) outs).

(** A part after a failed visit, and after a successful one. *)
Definition flagged (e : error) (p : Part) : Part :=
  mkPart (payload p) (metadata p) (Some e).
Definition replaced (b : bytes) (p : Part) : Part :=
  mkPart b (metadata p) (failed p).

(** What the visit of a part leaves behind: the same part flagged with the
    error, or the part with the operator's decimal result as its payload. *)
Definition part_outcome (err : option error) (p0 p : Part) : Prop :=
  match err with
  | Some e => p = flagged e p0
  | None => exists v, p = replaced (AppendInt None v) p0
  end.

(** ** Sample values *)

Definition world0 : World := mkWorld 0 [] [] ∅ [] false (mkStore [] []).

(** A client whose every call fails. *)
Definition client_failing : Client :=
  mkClient (λ _ _, (0, Some "connection refused")) 10 None.

(** A client whose first [k] calls fail and whose later calls answer [v]. *)
Definition client_flaky (k : nat) (v : Z) : Client :=
  mkClient (λ n _, if (n <? k)%nat then (0, Some "i/o timeout") else (v, None)) 10 None.

Definition sample_conf (retries : Z) (opStr period : string) : Config :=
  mkConfig "redis"
    (mkRedisConfig (mkBredisConfig "tcp://localhost:6379" "simple" "")
       [] opStr "s1" retries period).

(** A processor as [NewRedis] builds it, for a given client. *)
Definition sample_redis (c : Client) (retries : Z) (op : redisOperator) : Redis :=
  mkRedis [] (sample_conf retries "scard" "500ms") (mkExpression (λ _ _, "s1"))
    op c 500000000 "count" "error" "sent" "batch.sent" "redis.retry".

(** The same with a retry period of two nanoseconds and one retry configured. *)
Definition quick_redis : Redis :=
  mkRedis [] (sample_conf 1 "scard" "2ns") (mkExpression (λ _ _, "s1"))
    OpSCard client_failing 2 "count" "error" "sent" "batch.sent" "redis.retry".

(** A world holding one batch of two parts, ["a"] and ["b"]. *)
Definition world1 : World :=
  mkWorld 0 [] [] ∅ [] false
    (mkStore [mkPart (list_byte_of_string "a") ∅ None;
              mkPart (list_byte_of_string "b") ∅ None]
             [[0%nat; 1%nat]]).

(** A set store: key ["s1"] has four members, every other key none. *)
Definition client_sets : Client :=
  mkClient (λ _ cmd, match cmd with
                     | CmdSCard k => if String.eqb k "s1" then (4, None) else (0, None)
                     | CmdSAdd _ _ => (1, None)
                     end) 10 None.

(** The processor of the cardinality scenario: keys ["s1"], ["s2"], ... by
    part index. *)
Definition scard_redis (c : Client) : Redis :=
  mkRedis [] (sample_conf 3 "scard" "500ms")
    (mkExpression (λ i _, if (i =? 0)%nat then "s1" else "s2"))
    OpSCard c 500000000 "count" "error" "sent" "batch.sent" "redis.retry".

(** Collaborators that accept the default configuration: the parser knows
    ["500ms"], every client can be created, every key expression compiles
    to the constant it spells. *)
Definition sample_env : Env :=
  mkEnv (λ _, inl client_failing)
        (λ s, if String.eqb s "500ms" then inl 500000000 else inr "unknown unit")
        (λ s, inl (mkExpression (λ _ _, s))).

(** The default configuration of the processor. *)
Definition default_conf : Config :=
  mkConfig "redis" (NewRedisConfig (mkBredisConfig "tcp://localhost:6379" "simple" "")).

(** Collaborators of the producer that never fail, and a goroutine with an
    interval of two and a blob of three bytes. *)
Definition producer_env : producer.Env :=
  producer.mkEnv (λ s, if String.eqb s "2ns" then inl 2 else inr "unknown unit")
    (λ s, if String.eqb s "3" then inl 3
          else if String.eqb s "-1" then inl (-1) else inr "invalid syntax")
    None None (λ _, Some "connection refused") (λ i, 255 + Z.of_nat i)
    (λ t, inl [producer.byte_of_Z t]) (λ _, None).

Definition producer_g : producer.Running :=
  producer.mkRunning "tcp://localhost:1234" 2
    (map (λ i, producer.byte_of_Z (producer.rand_Int producer_env i)) (seq 0 3)).

(** * Properties *)

(** ** The world: projections after each effect *)

Lemma wrap64_small (z : Z) : min_int64 <= z <= max_int64 -> wrap64 z = z.
Proof.
  unfold wrap64, min_int64, max_int64. intros Hz.
  rewrite Z.mod_small; lia.
Qed.

Lemma counter_Incr (c c' : StatCounter) (n : Z) (w : World) :
  counter (Incr c n w) c' = if decide (c = c') then counter w c + n else counter w c'.
Proof.
  unfold counter, Incr. simpl. destruct (decide (c = c')) as [->|Hne].
  - by rewrite lookup_insert_eq.
  - by rewrite lookup_insert_ne.
Qed.

Lemma counter_Incr_eq (c : StatCounter) (n : Z) (w : World) :
  counter (Incr c n w) c = counter w c + n.
Proof. rewrite counter_Incr. by destruct (decide (c = c)). Qed.

Lemma counter_Incr_ne (c c' : StatCounter) (n : Z) (w : World) :
  c ≠ c' -> counter (Incr c n w) c' = counter w c'.
Proof. intros. rewrite counter_Incr. by destruct (decide (c = c')). Qed.

Lemma retry_loop_S (fuel : nat) (r : Redis) (cmd : Cmd) (i res : Z) (e : error)
    (w : World) :
  retry_loop (S fuel) r cmd i res (Some e) w =
  if i <=? Retries (cRedis (conf r))
  then retry_loop fuel r cmd (wrap64 (i + 1))
         (fst (respond (client r) (length (issued w)) cmd))
         (snd (respond (client r) (length (issued w)) cmd))
         (retried r cmd e w)
  else Some ((res, Some e), w).
Proof.
  simpl. destruct (i <=? Retries (cRedis (conf r))); [|done].
  unfold retried, call. simpl.
  by destruct (respond (client r) (length (issued w)) cmd).
Qed.

Lemma retry_loop_nil (fuel : nat) (r : Redis) (cmd : Cmd) (i res : Z) (w : World) :
  retry_loop (S fuel) r cmd i res None w = Some ((res, None), w).
Proof. done. Qed.

Lemma retried_issued r cmd e w : issued (retried r cmd e w) = issued w ++ [cmd].
Proof. done. Qed.

Lemma retried_clock r cmd e w :
  clock (retried r cmd e w) = clock w + Z.max 0 (retryPeriod r).
Proof. done. Qed.

Lemma retried_store r cmd e w : store (retried r cmd e w) = store w.
Proof. done. Qed.

Lemma retried_spans r cmd e w : spans (retried r cmd e w) = spans w.
Proof. done. Qed.

Lemma retried_counter r cmd e w c :
  counter (retried r cmd e w) c =
  if decide (mRedisRetry r = c) then counter w c + 1 else counter w c.
Proof.
  unfold retried, call. simpl.
  unfold counter. simpl. destruct (decide (mRedisRetry r = c)) as [<-|Hne].
  - by rewrite lookup_insert_eq.
  - by rewrite lookup_insert_ne.
Qed.

Global Opaque retried.

(** ** The retry loop *)

Section RetryLoop.

Variable r : Redis.
Variable cmd : Cmd.

Let R := Retries (cRedis (conf r)).
Let answer (j : nat) := respond (client r) j cmd.

(** With [Retries] below the largest [int] the counter never wraps and the
    loop ends within [Retries + 2] evaluations of its guard. *)
Lemma retry_loop_terminates (fuel : nat) :
  forall (i res : Z) (err : option error) (w : World),
    R < max_int64 -> 0 <= i ->
    (Z.to_nat (R + 1 - i) < fuel)%nat ->
    is_Some (retry_loop fuel r cmd i res err w).
Proof.
  induction fuel as [|fuel IH]; intros i res err w HR Hi Hfuel; [lia|].
  destruct err as [e|]; [|by eexists].
  rewrite retry_loop_S. fold R.
  destruct (Z.leb_spec i R) as [Hle|Hgt]; [|by eexists].
  rewrite wrap64_small by (unfold min_int64, max_int64 in *; lia).
  apply IH; [done|lia|lia].
Qed.

(** What a finished loop has done: [n] retries, each a sleep of the retry
    period, an increment of the retry counter and one more call; the result
    is the answer to the last call, and every call before it failed. *)
Lemma retry_loop_sound (fuel : nat) :
  forall (i res : Z) (err : option error) (w : World) out w',
    retry_loop fuel r cmd i res err w = Some (out, w') ->
    exists n : nat,
      issued w' = issued w ++ replicate n cmd /\
      clock w' = clock w + Z.of_nat n * Z.max 0 (retryPeriod r) /\
      store w' = store w /\
      spans w' = spans w /\
      (forall c, counter w' c =
                 if decide (mRedisRetry r = c) then counter w c + Z.of_nat n
                 else counter w c) /\
      match n with
      | O => out = (res, err) /\ w' = w
      | S m =>
          out = answer (length (issued w) + m) /\ is_Some err /\
          forall j, (j < m)%nat -> is_Some (snd (answer (length (issued w) + j)))
      end.
Proof.
  induction fuel as [|fuel IH]; intros i res err w out w' Hrun; [done|].
  destruct err as [e|].
  - rewrite retry_loop_S in Hrun.
    destruct (i <=? Retries (cRedis (conf r))).
    + apply IH in Hrun as (n & Hiss & Hclk & Hst & Hsp & Hcnt & Hout).
      exists (S n).
      rewrite retried_issued in Hiss. rewrite retried_clock in Hclk.
      rewrite retried_store in Hst. rewrite retried_spans in Hsp.
      split; [by rewrite Hiss, <- app_assoc|].
      split; [lia|]. split; [done|]. split; [done|].
      split.
      { intros c. rewrite Hcnt, retried_counter.
        destruct (decide (mRedisRetry r = c)); lia. }
      rewrite retried_issued, length_app in Hout. simpl in Hout.
      destruct n as [|m].
      * destruct Hout as [-> _]. split; [|split; [by eexists|lia]].
        unfold answer. rewrite Nat.add_0_r.
        by destruct (respond (client r) (length (issued w)) cmd).
      * destruct Hout as (-> & Hsome & Hprev).
        split; [f_equal; lia|]. split; [by eexists|].
        intros [|j] Hj.
        -- by rewrite Nat.add_0_r.
        -- replace (length (issued w) + S j)%nat
             with (length (issued w) + 1 + j)%nat by lia.
           apply Hprev. lia.
    + injection Hrun as <- <-. exists O. simpl.
      rewrite app_nil_r. repeat split; try done; try lia.
      intros c. destruct (decide (mRedisRetry r = c)); lia.
  - injection Hrun as <- <-. exists O. simpl.
    rewrite app_nil_r. repeat split; try done; try lia.
    intros c. destruct (decide (mRedisRetry r = c)); lia.
Qed.

(** While the calls keep failing and the guard [i <= Retries] holds, the
    loop goes round. *)
Lemma retry_loop_fail_run (n : nat) :
  forall (fuel : nat) (i res : Z) (e : error) (w : World),
    0 <= i -> i + Z.of_nat n <= R + 1 -> i + Z.of_nat n <= max_int64 ->
    (forall j, (j < n)%nat -> is_Some (snd (answer (length (issued w) + j)))) ->
    exists res' e' w',
      retry_loop (n + fuel) r cmd i res (Some e) w =
      retry_loop fuel r cmd (i + Z.of_nat n) res' (Some e') w' /\
      issued w' = issued w ++ replicate n cmd.
Proof.
  induction n as [|n IH]; intros fuel i res e w Hi HR Hmax Hfail.
  - exists res, e, w. rewrite Z.add_0_r, app_nil_r. done.
  - change (S n + fuel)%nat with (S (n + fuel)). rewrite retry_loop_S. fold R.
    destruct (Z.leb_spec i R) as [_|Hgt]; [|lia].
    rewrite wrap64_small by (unfold min_int64, max_int64 in *; lia).
    destruct (Hfail O ltac:(lia)) as [e1 He1].
    rewrite Nat.add_0_r in He1. unfold answer in He1. rewrite He1.
    destruct (IH fuel (i + 1)
                (fst (respond (client r) (length (issued w)) cmd)) e1
                (retried r cmd e w)) as (res' & e' & w' & Heq & Hiss).
    + lia.
    + lia.
    + lia.
    + intros j Hj. rewrite retried_issued, length_app. simpl.
      replace (length (issued w) + 1 + j)%nat
        with (length (issued w) + S j)%nat by lia.
      apply Hfail. lia.
    + exists res', e', w'. split.
      * rewrite Heq. f_equal. lia.
      * rewrite Hiss, retried_issued, <- app_assoc. done.
Qed.

End RetryLoop.

(** ** One operator invocation *)

Section Operator.

Variable r : Redis.
Variable cmd : Cmd.

Let R := Retries (cRedis (conf r)).
Let answer (j : nat) := respond (client r) j cmd.

Lemma operator_body_unfold (fuel : nat) (w : World) :
  operator_body fuel r cmd w =
  match retry_loop fuel r cmd 0 (fst (answer (length (issued w))))
          (snd (answer (length (issued w)))) (set_issued w (issued w ++ [cmd])) with
  | Some (a, w') => Some (operator_result a, w')
  | None => None
  end.
Proof.
  unfold operator_body, call, answer.
  destruct (respond (client r) (length (issued w)) cmd) as [res err]. simpl.
  destruct (retry_loop fuel r cmd 0 res err _) as [[[res' [e|]] w']|]; done.
Qed.

(** Every invocation that returns has made [n + 1] calls; its result is
    the answer to the last of them, and all the earlier calls failed. *)
Lemma operator_body_sound (fuel : nat) (w : World) out w' :
  operator_body fuel r cmd w = Some (out, w') ->
  exists n : nat,
    issued w' = issued w ++ replicate (S n) cmd /\
    out = operator_result (answer (length (issued w) + n)) /\
    (forall j, (j < n)%nat -> is_Some (snd (answer (length (issued w) + j)))) /\
    clock w' = clock w + Z.of_nat n * Z.max 0 (retryPeriod r) /\
    store w' = store w /\
    spans w' = spans w /\
    (forall c, counter w' c =
               if decide (mRedisRetry r = c) then counter w c + Z.of_nat n
               else counter w c).
Proof.
  rewrite operator_body_unfold. intros Hrun.
  destruct (retry_loop fuel r cmd 0 _ _ _) as [[a w1]|] eqn:Hloop; [|done].
  injection Hrun as <- <-.
  apply retry_loop_sound in Hloop as (n & Hiss & Hclk & Hst & Hsp & Hcnt & Hout).
  simpl in Hiss, Hclk, Hst, Hsp. exists n.
  split; [by rewrite Hiss, <- app_assoc|].
  assert (Hc : forall c, counter w1 c =
                 if decide (mRedisRetry r = c) then counter w c + Z.of_nat n
                 else counter w c) by (intros c; apply Hcnt).
  destruct n as [|m].
  - destruct Hout as [-> _]. rewrite Nat.add_0_r.
    split; [by destruct (answer (length (issued w)))|].
    split; [lia|]. done.
  - destruct Hout as (-> & Hsome & Hprev).
    simpl in Hprev |- *. rewrite length_app in Hprev |- *. simpl in Hprev |- *.
    replace (length (issued w) + 1 + m)%nat
      with (length (issued w) + S m)%nat by lia.
    split; [done|].
    split; [|done].
    intros [|j] Hj.
    + by rewrite Nat.add_0_r.
    + replace (length (issued w) + S j)%nat
        with (length (issued w) + 1 + j)%nat by lia.
      apply Hprev. lia.
Qed.

(** With [Retries] below the largest [int], [Retries + 2] units of fuel are
    enough for the invocation to return. *)
Lemma operator_body_returns (fuel : nat) (w : World) :
  R < max_int64 -> (Z.to_nat (R + 1) < fuel)%nat ->
  is_Some (operator_body fuel r cmd w).
Proof.
  intros HR Hfuel. rewrite operator_body_unfold.
  destruct (retry_loop_terminates r cmd fuel 0
              (fst (answer (length (issued w)))) (snd (answer (length (issued w))))
              (set_issued w (issued w ++ [cmd]))) as [[a w'] Hrun].
  - done.
  - lia.
  - rewrite Z.sub_0_r. done.
  - rewrite Hrun. by eexists.
Qed.

(** The invocation whose first [k] calls fail and whose call [k + 1] either
    succeeds or is the last the guard allows: it returns the answer to that
    call after exactly [k] retries. *)
Lemma operator_body_exact (k fuel : nat) (w : World) :
  Z.of_nat k <= R + 1 -> Z.of_nat k <= max_int64 ->
  (forall j, (j < k)%nat -> is_Some (snd (answer (length (issued w) + j)))) ->
  snd (answer (length (issued w) + k)) = None \/ Z.of_nat k = R + 1 ->
  (k < fuel)%nat ->
  exists w',
    operator_body fuel r cmd w =
      Some (operator_result (answer (length (issued w) + k)), w') /\
    issued w' = issued w ++ replicate (S k) cmd /\
    clock w' = clock w + Z.of_nat k * Z.max 0 (retryPeriod r) /\
    store w' = store w /\
    (forall c, counter w' c =
               if decide (mRedisRetry r = c) then counter w c + Z.of_nat k
               else counter w c).
Proof.
  intros HkR Hkmax Hfail Hlast Hfuel.
  assert (Hret : exists w', operator_body fuel r cmd w =
                   Some (operator_result (answer (length (issued w) + k)), w') /\
                 length (issued w') = (length (issued w) + S k)%nat).
  { rewrite operator_body_unfold.
    set (w0 := set_issued w (issued w ++ [cmd])).
    assert (Hlen0 : length (issued w0) = (length (issued w) + 1)%nat)
      by (unfold w0; simpl; rewrite length_app; done).
    destruct k as [|k].
    - destruct fuel as [|fuel]; [lia|].
      rewrite Nat.add_0_r in Hlast |- *.
      destruct (answer (length (issued w))) as [res [e|]] eqn:Ha; cbn [fst snd] in *.
      + destruct Hlast as [Hnone|HR0]; [done|].
        rewrite retry_loop_S. fold R.
        destruct (Z.leb_spec 0 R); [lia|]. eexists. split; [done|lia].
      + eexists. split; [done|lia].
    - destruct (Hfail O ltac:(lia)) as [e0 He0]. rewrite Nat.add_0_r in He0.
      rewrite He0.
      assert (Hf : exists f, fuel = (k + S (S f))%nat) by (exists (fuel - k - 2)%nat; lia).
      destruct Hf as [f ->].
      destruct (retry_loop_fail_run r cmd k (S (S f)) 0
                  (fst (answer (length (issued w)))) e0 w0)
        as (res' & e' & w1 & Heq & Hiss); [lia|fold R; lia|lia| |].
      { intros j Hj. rewrite Hlen0.
        replace (length (issued w) + 1 + j)%nat
          with (length (issued w) + S j)%nat by lia.
        apply Hfail. lia. }
      assert (Hlen1 : length (issued w1) = (length (issued w) + S k)%nat).
      { rewrite Hiss, length_app, length_replicate, Hlen0. lia. }
      unfold answer in Heq |- *. rewrite Heq, retry_loop_S. fold R.
      destruct (Z.leb_spec (0 + Z.of_nat k) R) as [_|Hgt]; [|lia].
      rewrite wrap64_small by (unfold min_int64, max_int64 in *; lia).
      rewrite Hlen1. fold (answer (length (issued w) + S k)) in *.
      destruct (answer (length (issued w) + S k)) as [res1 [e1|]] eqn:Ha; cbn [fst snd] in *.
      + destruct Hlast as [Hnone|HkR']; [done|].
        rewrite retry_loop_S. fold R.
        destruct (Z.leb_spec (0 + Z.of_nat k + 1) R); [lia|].
        eexists. split; [done|]. rewrite retried_issued, length_app, Hlen1. simpl. lia.
      + eexists. split; [done|]. rewrite retried_issued, length_app, Hlen1. simpl. lia. }
  destruct Hret as (w' & Hrun & Hlen). exists w'. split; [done|].
  destruct (operator_body_sound fuel w _ w' Hrun)
    as (n & Hiss & _ & _ & Hclk & Hst & _ & Hcnt).
  assert (n = k) as ->; [|done].
  apply (f_equal length) in Hiss.
  rewrite length_app, length_replicate in Hiss. lia.
Qed.

End Operator.

(** ** The retry envelope of the two operators *)

Lemma apply_operator_body (op : redisOperator) (fuel : nat) (r : Redis)
    (key : string) (value : bytes) (w : World) :
  apply_operator op fuel r key value w =
  operator_body fuel r (operator_cmd op key value) w.
Proof. by destruct op. Qed.

(** C1, as the code has it: with [Retries = R] and a remote call that fails
    on every attempt, either operator makes [R + 2] attempts ([R + 1]
    retries after the first call), one more than [max_retries + 1], and
    returns the error. *)
Theorem always_failing_attempts (op : redisOperator) (fuel : nat) (r : Redis)
    (key : string) (value : bytes) (w : World) :
  0 <= Retries (cRedis (conf r)) < max_int64 ->
  (forall j, is_Some (snd (respond (client r) (length (issued w) + j)
                             (operator_cmd op key value)))) ->
  (Z.to_nat (Retries (cRedis (conf r)) + 1) < fuel)%nat ->
  exists e w',
    apply_operator op fuel r key value w = Some ((None, Some e), w') /\
    issued w' = issued w ++ replicate (Z.to_nat (Retries (cRedis (conf r)) + 2))
                                      (operator_cmd op key value) /\
    Z.of_nat (length (issued w')) - Z.of_nat (length (issued w)) =
      Retries (cRedis (conf r)) + 2 /\
    counter w' (mRedisRetry r) =
      counter w (mRedisRetry r) + (Retries (cRedis (conf r)) + 1).
Proof.
  intros HR Hfail Hfuel. rewrite apply_operator_body.
  set (cmd := operator_cmd op key value) in *.
  set (R := Retries (cRedis (conf r))) in *.
  destruct (operator_body_exact r cmd (Z.to_nat (R + 1)) fuel w)
    as (w' & Hrun & Hiss & _ & _ & Hcnt).
  - fold R. lia.
  - lia.
  - intros j _. apply Hfail.
  - right. fold R. lia.
  - done.
  - destruct (Hfail (Z.to_nat (R + 1))) as [e He].
    exists e, w'. unfold operator_result in Hrun. rewrite He in Hrun.
    split; [done|]. split.
    { rewrite Hiss. do 2 f_equal. lia. }
    split.
    { rewrite Hiss, length_app, length_replicate. lia. }
    rewrite Hcnt. destruct (decide (mRedisRetry r = mRedisRetry r)); [lia|done].
Qed.

Lemma always_failing_attempts_witness :
  exists e w',
    apply_operator OpSCard 5 (sample_redis client_failing 3 OpSCard) "s1" [] world0
      = Some ((None, Some e), w') /\
    issued w' = issued world0 ++ replicate 5 (CmdSCard "s1") /\
    Z.of_nat (length (issued w')) - Z.of_nat (length (issued world0)) = 3 + 2 /\
    counter w' "redis.retry" = counter world0 "redis.retry" + (3 + 1).
Proof.
  apply (always_failing_attempts OpSCard 5 (sample_redis client_failing 3 OpSCard)
           "s1" [] world0).
  - simpl. unfold max_int64. lia.
  - intros j. simpl. by eexists.
  - simpl. lia.
Defined.

(** C4: when the first [k <= Retries] attempts fail and attempt [k + 1]
    succeeds with [v], the operator returns the decimal bytes of [v] with a
    nil error, and the [redis.retry] counter has gone up by exactly [k]. *)
Theorem fails_k_then_succeeds (op : redisOperator) (fuel : nat) (r : Redis)
    (key : string) (value : bytes) (w : World) (k : nat) (v : Z) :
  Z.of_nat k <= Retries (cRedis (conf r)) ->
  Retries (cRedis (conf r)) <= max_int64 ->
  (forall j, (j < k)%nat ->
             is_Some (snd (respond (client r) (length (issued w) + j)
                             (operator_cmd op key value)))) ->
  respond (client r) (length (issued w) + k) (operator_cmd op key value) = (v, None) ->
  (k < fuel)%nat ->
  exists w',
    apply_operator op fuel r key value w = Some ((Some (AppendInt None v), None), w') /\
    counter w' (mRedisRetry r) = counter w (mRedisRetry r) + Z.of_nat k /\
    issued w' = issued w ++ replicate (S k) (operator_cmd op key value).
Proof.
  intros Hk HR Hfail Hok Hfuel. rewrite apply_operator_body.
  destruct (operator_body_exact r (operator_cmd op key value) k fuel w)
    as (w' & Hrun & Hiss & _ & _ & Hcnt).
  - lia.
  - lia.
  - done.
  - left. by rewrite Hok.
  - done.
  - exists w'. rewrite Hok in Hrun. split; [done|]. split; [|done].
    rewrite Hcnt. destruct (decide (mRedisRetry r = mRedisRetry r)); [lia|done].
Qed.

Lemma fails_k_then_succeeds_witness :
  exists w',
    apply_operator OpSAdd 4 (sample_redis (client_flaky 2 1) 3 OpSAdd) "s1" [] world0
      = Some ((Some (AppendInt None 1), None), w') /\
    counter w' "redis.retry" = counter world0 "redis.retry" + Z.of_nat 2 /\
    issued w' = issued world0 ++ replicate 3 (CmdSAdd "s1" []).
Proof.
  apply (fails_k_then_succeeds OpSAdd 4 (sample_redis (client_flaky 2 1) 3 OpSAdd)
           "s1" [] world0 2 1).
  - simpl. lia.
  - simpl. unfold max_int64. lia.
  - intros j Hj. simpl. destruct (Nat.ltb_spec j 2); [by eexists|lia].
  - reflexivity.
  - lia.
Defined.

(** C5: an invocation returns what its last attempt answered: the error of
    that attempt, unchanged and with nil bytes, when it failed (all earlier
    attempts failed too); the decimal bytes with a nil error as soon as an
    attempt succeeds. *)
Theorem operator_returns_last_attempt (op : redisOperator) (fuel : nat)
    (r : Redis) (key : string) (value : bytes) (w : World) :
  Retries (cRedis (conf r)) < max_int64 ->
  (Z.to_nat (Retries (cRedis (conf r)) + 1) < fuel)%nat ->
  exists out err w' n,
    apply_operator op fuel r key value w = Some ((out, err), w') /\
    issued w' = issued w ++ replicate (S n) (operator_cmd op key value) /\
    (forall j, (j < n)%nat ->
               is_Some (snd (respond (client r) (length (issued w) + j)
                               (operator_cmd op key value)))) /\
    (forall e, snd (respond (client r) (length (issued w) + n)
                      (operator_cmd op key value)) = Some e ->
               out = None /\ err = Some e) /\
    (forall j v, (j <= n)%nat ->
                 respond (client r) (length (issued w) + j)
                   (operator_cmd op key value) = (v, None) ->
                 out = Some (AppendInt None v) /\ err = None).
Proof.
  intros HR Hfuel. rewrite apply_operator_body.
  set (cmd := operator_cmd op key value).
  destruct (operator_body_returns r cmd fuel w HR Hfuel) as [[[out err] w'] Hrun].
  destruct (operator_body_sound r cmd fuel w _ w' Hrun)
    as (n & Hiss & Hout & Hprev & _).
  exists out, err, w', n. split; [done|]. split; [done|]. split; [done|].
  unfold operator_result in Hout. split.
  - intros e He. rewrite He in Hout. by injection Hout as -> ->.
  - intros j v Hj Hv.
    assert (j = n) as ->.
    { destruct (decide (j = n)) as [|Hne]; [done|].
      destruct (Hprev j ltac:(lia)) as [e He]. rewrite Hv in He. done. }
    rewrite Hv in Hout. simpl in Hout. by injection Hout as -> ->.
Qed.

Lemma operator_returns_last_attempt_witness :
  exists out err w' n,
    apply_operator OpSCard 5 (sample_redis (client_flaky 1 4) 3 OpSCard) "s1" [] world0
      = Some ((out, err), w') /\
    issued w' = issued world0 ++ replicate (S n) (CmdSCard "s1") /\
    (forall j, (j < n)%nat ->
               is_Some (snd (respond (client_flaky 1 4) (0 + j) (CmdSCard "s1")))) /\
    (forall e, snd (respond (client_flaky 1 4) (0 + n) (CmdSCard "s1")) = Some e ->
               out = None /\ err = Some e) /\
    (forall j v, (j <= n)%nat ->
                 respond (client_flaky 1 4) (0 + j) (CmdSCard "s1") = (v, None) ->
                 out = Some (AppendInt None v) /\ err = None).
Proof.
  apply (operator_returns_last_attempt OpSCard 5
           (sample_redis (client_flaky 1 4) 3 OpSCard) "s1" [] world0).
  - simpl. unfold max_int64. lia.
  - simpl. lia.
Defined.

(** ** Construction *)

Lemma getRedisOperator_unknown (opStr : string) :
  opStr <> "sadd" -> opStr <> "scard" ->
  getRedisOperator opStr = (None, Some (Errorf "operator not recognised: " opStr)).
Proof.
  intros Hsadd Hscard. unfold getRedisOperator.
  destruct (String.eqb_spec opStr "sadd"); [done|].
  destruct (String.eqb_spec opStr "scard"); [done|]. done.
Qed.

Lemma getRedisOperator_resolved (opStr : string) (op : redisOperator) e :
  getRedisOperator opStr = (Some op, e) ->
  e = None /\ (opStr = "scard" /\ op = OpSCard \/ opStr = "sadd" /\ op = OpSAdd).
Proof.
  unfold getRedisOperator.
  destruct (String.eqb_spec opStr "sadd") as [->|].
  { intros [= <- <-]. auto. }
  destruct (String.eqb_spec opStr "scard") as [->|]; [|done].
  intros [= <- <-]. auto.
Qed.

Lemma NewRedis_rest_cases (env : Env) (conf : Config) (d : Duration) r e :
  NewRedis_rest env conf d = (Some r, e) ->
  e = None /\ retryPeriod r = d /\
  (Operator (cRedis conf) = "scard" /\ operator r = OpSCard \/
   Operator (cRedis conf) = "sadd" /\ operator r = OpSAdd).
Proof.
  unfold NewRedis_rest.
  destruct (bredis_Client env _) as [c|]; [|done].
  destruct (NewField env _) as [k|]; [|done].
  destruct (getRedisOperator _) as [[op|] [e'|]] eqn:Hop; try done.
  intros [= <- <-]. simpl.
  apply getRedisOperator_resolved in Hop as [_ Hop]. done.
Qed.

Lemma NewRedis_rest_unknown (env : Env) (conf : Config) (d : Duration) :
  Operator (cRedis conf) <> "sadd" -> Operator (cRedis conf) <> "scard" ->
  exists e, NewRedis_rest env conf d = (None, Some e).
Proof.
  intros Hsadd Hscard. unfold NewRedis_rest.
  destruct (bredis_Client env _) as [c|e]; [|by eexists].
  destruct (NewField env _) as [k|e]; [|by eexists].
  rewrite getRedisOperator_unknown by done. by eexists.
Qed.

(** C7: an operator name other than ["scard"] and ["sadd"] makes [NewRedis]
    fail; the two names are resolved by [getRedisOperator]; and a processor
    that was constructed holds one of the two operators, the one its
    configuration names, so processing never meets an unknown name. *)
Theorem operator_resolved_at_construction (env : Env) (conf : Config) :
  (Operator (cRedis conf) <> "scard" -> Operator (cRedis conf) <> "sadd" ->
   exists e, NewRedis env conf = (None, Some e)) /\
  getRedisOperator "scard" = (Some OpSCard, None) /\
  getRedisOperator "sadd" = (Some OpSAdd, None) /\
  (forall opStr, opStr <> "scard" -> opStr <> "sadd" ->
     getRedisOperator opStr = (None, Some (Errorf "operator not recognised: " opStr))) /\
  (forall r e, NewRedis env conf = (Some r, e) ->
     e = None /\
     (Operator (cRedis conf) = "scard" /\ operator r = OpSCard \/
      Operator (cRedis conf) = "sadd" /\ operator r = OpSAdd)).
Proof.
  split; [|split; [done|split; [done|split]]].
  - intros Hscard Hsadd. unfold NewRedis.
    destruct (0 <? _)%nat.
    + destruct (ParseDuration env _) as [d|e]; [|by eexists].
      by apply NewRedis_rest_unknown.
    + by apply NewRedis_rest_unknown.
  - intros opStr Hscard Hsadd. by apply getRedisOperator_unknown.
  - intros r e. unfold NewRedis.
    destruct (0 <? _)%nat.
    + destruct (ParseDuration env _) as [d|e']; [|done].
      intros H. apply NewRedis_rest_cases in H. tauto.
    + intros H. apply NewRedis_rest_cases in H. tauto.
Qed.

(** C10: with an empty [retry_period] string [NewRedis] does not consult
    the duration parser and goes on with a zero retry period, so a
    constructed processor has [retryPeriod = 0] and construction succeeds
    when the client, the key expression and the operator name are fine; a
    non-empty string goes through the parser, whose failure is the
    construction error and whose result is the retry period. *)
Theorem empty_retry_period_skips_parsing (env : Env) (conf : Config) :
  (RetryPeriod (cRedis conf) = "" ->
     NewRedis env conf = NewRedis_rest env conf 0 /\
     (forall parse, NewRedis (mkEnv (bredis_Client env) parse (NewField env)) conf
                    = NewRedis env conf) /\
     (forall r e, NewRedis env conf = (Some r, e) -> retryPeriod r = 0) /\
     (forall c k op,
        bredis_Client env (RConfig (cRedis conf)) = inl c ->
        NewField env (Key (cRedis conf)) = inl k ->
        getRedisOperator (Operator (cRedis conf)) = (Some op, None) ->
        exists r, NewRedis env conf = (Some r, None) /\ retryPeriod r = 0)) /\
  (RetryPeriod (cRedis conf) <> "" ->
     (forall e, ParseDuration env (RetryPeriod (cRedis conf)) = inr e ->
        NewRedis env conf =
        (None, Some (Errorf "failed to parse retry period string: " e))) /\
     (forall d, ParseDuration env (RetryPeriod (cRedis conf)) = inl d ->
        NewRedis env conf = NewRedis_rest env conf d)).
Proof.
  split.
  - intros Hempty. unfold NewRedis. rewrite Hempty. simpl.
    split; [done|]. split; [done|]. split.
    + intros r e H. apply NewRedis_rest_cases in H. tauto.
    + intros c k op Hc Hk Hop. unfold NewRedis_rest. rewrite Hc, Hk, Hop.
      by eexists.
  - intros Hne. unfold NewRedis.
    destruct (RetryPeriod (cRedis conf)) as [|a s]; [done|]. simpl.
    split; intros x ->; done.
Qed.

(** ** Shutdown *)

(** C3, as the code has it: for every timeout [WaitForClose] closes the
    client, takes as long as the client's [Close] takes, and returns nil;
    the timeout is not read and no timeout error is ever returned. *)
Theorem WaitForClose_ignores_timeout (r : Redis) (timeout : Duration) (w : World) :
  fst (WaitForClose r timeout w) = None /\
  clientClosed (snd (WaitForClose r timeout w)) = true /\
  clock (snd (WaitForClose r timeout w)) = clock w + Z.max 0 (closeLatency (client r)) /\
  WaitForClose r timeout w = WaitForClose r 0 w.
Proof. done. Qed.

(** C3 as stated fails: with a timeout of 1 and a client whose [Close]
    takes 10, [WaitForClose] returns nil after 10, not a timeout error. *)
Lemma WaitForClose_short_timeout_returns_nil :
  1 < closeLatency (client (sample_redis client_failing 3 OpSCard)) /\
  fst (WaitForClose (sample_redis client_failing 3 OpSCard) 1 world0) = None /\
  clock (snd (WaitForClose (sample_redis client_failing 3 OpSCard) 1 world0))
    = clock world0 + 10.
Proof. split; [simpl; lia|]. split; reflexivity. Qed.

(** ** The output registry *)

(** C8: [Construct] answers [(nil, ErrInvalidOutputType)] for a type name
    the registry does not hold, and for a registered name exactly what the
    registered constructor answers for the same configuration. *)
Theorem Construct_registry (OutputType ZMQ4Config : Type) (ErrInvalidOutputType : error)
    (constructors : output.Constructors OutputType ZMQ4Config)
    (conf : output.Config ZMQ4Config) :
  (constructors !! output.Type_ ZMQ4Config conf = None ->
   output.Construct OutputType ZMQ4Config ErrInvalidOutputType constructors conf
   = (None, Some ErrInvalidOutputType)) /\
  (forall c, constructors !! output.Type_ ZMQ4Config conf = Some c ->
   output.Construct OutputType ZMQ4Config ErrInvalidOutputType constructors conf
   = c conf).
Proof.
  unfold output.Construct. split.
  - by intros ->.
  - by intros c ->.
Qed.

Lemma Construct_registry_witness :
  output.Construct nat unit "invalid output type"
    (<["zmq4" := λ _, (Some 7%nat, None)]> ∅) (output.mkConfig unit "stdout" None)
  = (None, Some "invalid output type") /\
  output.Construct nat unit "invalid output type"
    (<["zmq4" := λ c, (None, Some (output.Type_ unit c))]> ∅)
    (output.mkConfig unit "zmq4" None)
  = (None, Some "zmq4").
Proof.
  split.
  - apply (Construct_registry nat unit "invalid output type"
             (<["zmq4" := λ _, (Some 7%nat, None)]> ∅)
             (output.mkConfig unit "stdout" None)).
    reflexivity.
  - apply (proj2 (Construct_registry nat unit "invalid output type"
                    (<["zmq4" := λ c, (None, Some (output.Type_ unit c))]> ∅)
                    (output.mkConfig unit "zmq4" None))
             (λ c, (None, Some (output.Type_ unit c)))).
    reflexivity.
Defined.

(** ** Closing while a retry loop sleeps *)

Lemma sys_step_close (r : Redis) (cmd : Cmd) (s : Sys) :
  sys_world (sys_step r cmd EvClose s) = sys_world s /\
  sys_op (sys_step r cmd EvClose s) = sys_op s.
Proof. done. Qed.

Lemma sys_step_flag_irrelevant (r : Redis) (cmd : Cmd) (ev : Event) (s1 s2 : Sys) :
  sys_world s1 = sys_world s2 -> sys_op s1 = sys_op s2 ->
  sys_world (sys_step r cmd ev s1) = sys_world (sys_step r cmd ev s2) /\
  sys_op (sys_step r cmd ev s1) = sys_op (sys_step r cmd ev s2).
Proof.
  intros Hw Ho. destruct ev; simpl; rewrite Hw, Ho; [|done|done].
  by destruct (op_run r cmd (sys_op s2) (sys_world s2)).
Qed.

Lemma sys_run_close_erased (r : Redis) (cmd : Cmd) (evs : list Event) :
  forall s1 s2 : Sys,
    sys_world s1 = sys_world s2 -> sys_op s1 = sys_op s2 ->
    sys_world (sys_run r cmd evs s1)
      = sys_world (sys_run r cmd (List.filter (λ ev, negb (is_close ev)) evs) s2) /\
    sys_op (sys_run r cmd evs s1)
      = sys_op (sys_run r cmd (List.filter (λ ev, negb (is_close ev)) evs) s2).
Proof.
  induction evs as [|ev evs IH]; intros s1 s2 Hw Ho; [done|].
  destruct (sys_step_flag_irrelevant r cmd ev s1 s2 Hw Ho) as [Hw' Ho'].
  destruct ev; cbn [List.filter is_close negb sys_run fold_left].
  - by apply IH.
  - by apply IH.
  - apply IH; by rewrite ?(proj1 (sys_step_close r cmd s1)),
                         ?(proj2 (sys_step_close r cmd s1)).
Qed.

(** C2, as the code has it: [CloseAsync] changes nothing, so whatever the
    other goroutines do and whenever they close, the retry loop goes through
    the same states and issues the same calls as when nobody closes: a
    sleeping loop sleeps its retry period out and goes on retrying. *)
Theorem CloseAsync_has_no_effect (r : Redis) (cmd : Cmd) (evs : list Event) (s : Sys) :
  (forall w, CloseAsync r w = w) /\
  sys_world (sys_run r cmd evs s)
    = sys_world (sys_run r cmd (List.filter (λ ev, negb (is_close ev)) evs) s) /\
  sys_op (sys_run r cmd evs s)
    = sys_op (sys_run r cmd (List.filter (λ ev, negb (is_close ev)) evs) s).
Proof. split; [done|]. by apply sys_run_close_erased. Qed.

(** C2 as stated fails: one retry configured, a retry period of 2, every
    call failing.  [CloseAsync] arrives while the loop sleeps before its
    first retry; the loop stays asleep, wakes only when the period is over,
    and then makes both of the retries the guard allows. *)
Lemma close_does_not_wake_sleeping_retry_loop :
  let cmd := CmdSCard "s1" in
  let s := sys_run quick_redis cmd [EvRun; EvClose] (sys_start quick_redis cmd world0) in
  closeRequested s = true /\
  sys_op s = Sleeping 0 2 /\
  length (issued (sys_world s)) = 1%nat /\
  sys_op (sys_run quick_redis cmd [EvRun] s) = Sleeping 0 2 /\
  sys_op (sys_run quick_redis cmd [EvTick; EvRun] s) = Sleeping 0 1 /\
  let s' := sys_run quick_redis cmd
              [EvTick; EvTick; EvRun; EvRun; EvTick; EvTick; EvRun; EvRun] s in
  sys_op s' = Returned (None, Some "connection refused") /\
  length (issued (sys_world s')) = 3%nat /\
  counter (sys_world s') "redis.retry" = 2 /\
  clock (sys_world s') = 4.
Proof. vm_compute. repeat split. Qed.

(** ** The message store *)

Lemma frame_refl (m : Message) (s : Store) : frame m s s.
Proof. split; [exists []; by rewrite app_nil_r|done]. Qed.

Lemma frame_trans (m : Message) (s1 s2 s3 : Store) :
  frame m s1 s2 -> frame m s2 s3 -> frame m s1 s3.
Proof.
  intros ([l1 Ha1] & Hh1 & Hl1) ([l2 Ha2] & Hh2 & Hl2). split; [|split].
  - exists (l1 ++ l2). by rewrite Ha2, Ha1, app_assoc.
  - intros m0 Hne. by rewrite Hh2, Hh1.
  - by rewrite Hl2.
Qed.

Lemma handle_lookup_frame (s s' : Store) (l : list Part) (h : nat) :
  arena s' = arena s ++ l -> (h < length (arena s))%nat ->
  arena s' !! h = arena s !! h.
Proof. intros -> Hh. by apply lookup_app_l. Qed.

Lemma get_part_frame (m m0 : Message) (i : nat) (s s' : Store) :
  wf_store s -> frame m s s' -> m0 <> m ->
  get_part m0 i s' = get_part m0 i s.
Proof.
  intros Hwf ([l Ha] & Hh & _) Hne. unfold get_part. rewrite (Hh m0 Hne).
  destruct (handles m0 s) as [hs|] eqn:Hhs; [|done]. simpl.
  destruct (hs !! i) as [h|] eqn:Hi; [|done]. simpl.
  apply (handle_lookup_frame s s' l h Ha).
  apply (Hwf m0 hs h Hhs). by apply list_elem_of_lookup_2 in Hi.
Qed.

Lemma mapM_lookup_ext (a a' : list Part) (hs : list nat) :
  (forall h, h ∈ hs -> a' !! h = a !! h) ->
  mapM (λ h, a' !! h) hs = mapM (λ h, a !! h) hs.
Proof.
  induction hs as [|h hs IH]; intros Hext; [done|].
  simpl. rewrite (Hext h) by apply list_elem_of_here.
  rewrite IH; [done|]. intros h' Hh'. apply Hext. by apply list_elem_of_further.
Qed.

Lemma view_frame (m m0 : Message) (s s' : Store) :
  wf_store s -> frame m s s' -> m0 <> m -> view m0 s' = view m0 s.
Proof.
  intros Hwf ([l Ha] & Hh & _) Hne. unfold view. rewrite (Hh m0 Hne).
  destruct (handles m0 s) as [hs|] eqn:Hhs; [|done]. simpl.
  apply mapM_lookup_ext. intros h Hin.
  apply (handle_lookup_frame s s' l h Ha). by apply (Hwf m0 hs h Hhs).
Qed.

Section PutPart.

Variable m : Message.
Variable i : nat.
Variable p : Part.
Variable s s' : Store.
Hypothesis Hput : put_part m i p s = Some s'.

Lemma put_part_inv :
  exists hs, handles m s = Some hs /\ (i < length hs)%nat /\
    s' = mkStore (arena s ++ [p]) (<[m := <[i := length (arena s)]> hs]> (batches s)).
Proof.
  unfold put_part in Hput. destruct (handles m s) as [hs|]; [|done].
  simpl in Hput. destruct (decide (i < length hs)%nat); [|done].
  injection Hput as <-. by exists hs.
Qed.

Lemma put_part_handles :
  exists hs, handles m s = Some hs /\ (i < length hs)%nat /\
    handles m s' = Some (<[i := length (arena s)]> hs).
Proof.
  destruct put_part_inv as (hs & Hhs & Hi & ->). exists hs.
  split; [done|]. split; [done|]. unfold handles in *. simpl.
  apply list_lookup_insert_eq. by apply lookup_lt_Some in Hhs.
Qed.

Lemma put_part_frame : frame m s s'.
Proof.
  destruct put_part_inv as (hs & Hhs & Hi & ->). split; [|split].
  - by exists [p].
  - intros m0 Hne. unfold handles. simpl. by apply list_lookup_insert_ne.
  - unfold Len, handles in *. simpl.
    rewrite list_lookup_insert_eq by (by apply lookup_lt_Some in Hhs).
    rewrite Hhs. simpl. by rewrite length_insert.
Qed.

Lemma put_part_wf : wf_store s -> wf_store s'.
Proof.
  intros Hwf. destruct put_part_inv as (hs & Hhs & Hi & ->).
  intros m0 hs0 h Hhs0 Hin. simpl. rewrite length_app. simpl.
  unfold handles in *. simpl in Hhs0.
  destruct (decide (m0 = m)) as [->|Hne].
  - rewrite list_lookup_insert_eq in Hhs0 by (by apply lookup_lt_Some in Hhs).
    injection Hhs0 as <-.
    apply list_elem_of_lookup in Hin as [j Hj].
    destruct (decide (j = i)) as [->|Hji].
    + rewrite list_lookup_insert_eq in Hj by done. injection Hj as <-. lia.
    + rewrite list_lookup_insert_ne in Hj by done.
      apply list_elem_of_lookup_2 in Hj. specialize (Hwf m hs h Hhs Hj). lia.
  - rewrite list_lookup_insert_ne in Hhs0 by done.
    specialize (Hwf m0 hs0 h Hhs0 Hin). lia.
Qed.

Lemma put_part_get_eq : get_part m i s' = Some p.
Proof.
  destruct put_part_handles as (hs & Hhs & Hi & Hhs').
  destruct put_part_inv as (hs0 & Hhs0 & _ & Hs').
  unfold get_part. rewrite Hhs'. simpl.
  rewrite list_lookup_insert_eq by done. simpl.
  rewrite Hs'. simpl. by rewrite lookup_app_r, Nat.sub_diag.
Qed.

Lemma put_part_get_ne (j : nat) :
  wf_store s -> j <> i -> get_part m j s' = get_part m j s.
Proof.
  intros Hwf Hne. destruct put_part_handles as (hs & Hhs & Hi & Hhs').
  destruct put_part_frame as ([l Ha] & _ & _).
  unfold get_part. rewrite Hhs', Hhs. simpl.
  rewrite list_lookup_insert_ne by done.
  destruct (hs !! j) as [h|] eqn:Hj; [|done]. simpl.
  apply (handle_lookup_frame s s' l h Ha).
  apply (Hwf m hs h Hhs). by apply list_elem_of_lookup_2 in Hj.
Qed.

End PutPart.

Lemma put_part_is_Some (m : Message) (i : nat) (p : Part) (s : Store) (n : nat) :
  Len m s = Some n -> (i < n)%nat -> is_Some (put_part m i p s).
Proof.
  unfold Len, put_part. destruct (handles m s) as [hs|]; [|done]. simpl.
  intros [= <-] Hi. destruct (decide (i < length hs)%nat); [by eexists|done].
Qed.

Lemma get_part_is_Some (m : Message) (i : nat) (s : Store) (n : nat) :
  wf_store s -> Len m s = Some n -> (i < n)%nat -> is_Some (get_part m i s).
Proof.
  unfold Len, get_part. intros Hwf. destruct (handles m s) as [hs|] eqn:Hhs; [|done].
  simpl. intros [= <-] Hi.
  destruct (lookup_lt_is_Some_2 hs i Hi) as [h Hh]. rewrite Hh. simpl.
  apply lookup_lt_is_Some_2. apply (Hwf m hs h Hhs).
  by apply list_elem_of_lookup_2 in Hh.
Qed.

(** [Copy]: the new batch shares every part with the original. *)
Lemma Copy_spec (m : Message) (s : Store) (hs : list nat) :
  handles m s = Some hs ->
  exists s1,
    Copy m s = Some (length (batches s), s1) /\
    length (batches s) <> m /\
    arena s1 = arena s /\
    handles (length (batches s)) s1 = Some hs /\
    (forall m0, m0 <> length (batches s) -> handles m0 s1 = handles m0 s) /\
    (wf_store s -> wf_store s1) /\
    (forall j, get_part (length (batches s)) j s1 = get_part m j s).
Proof.
  intros Hhs. unfold Copy. rewrite Hhs. simpl. eexists. split; [done|].
  assert (Hm : (m < length (batches s))%nat) by (by apply lookup_lt_Some in Hhs).
  assert (Hnew : handles (length (batches s))
                   (mkStore (arena s) (batches s ++ [hs])) = Some hs).
  { unfold handles. simpl. by rewrite lookup_app_r, Nat.sub_diag. }
  assert (Hold : forall m0, m0 <> length (batches s) ->
            handles m0 (mkStore (arena s) (batches s ++ [hs])) = handles m0 s).
  { intros m0 Hne. unfold handles. simpl.
    destruct (decide (m0 < length (batches s))%nat).
    - by apply lookup_app_l.
    - rewrite !lookup_ge_None_2; [done|lia|]. rewrite length_app. simpl. lia. }
  split; [lia|]. split; [done|]. split; [done|]. split; [done|]. split.
  - intros Hwf m0 hs0 h Hhs0 Hin. simpl.
    destruct (decide (m0 = length (batches s))) as [->|Hne].
    + rewrite Hnew in Hhs0. injection Hhs0 as <-. by apply (Hwf m hs h).
    + rewrite Hold in Hhs0 by done. by apply (Hwf m0 hs0 h).
  - intros j. unfold get_part. rewrite Hnew, Hhs. done.
Qed.

(** ** One part *)

Lemma apply_operator_total (op : redisOperator) (fuel : nat) (r : Redis)
    (key : string) (value : bytes) (w : World) :
  fuel_ok r fuel ->
  exists out err w1,
    apply_operator op fuel r key value w = Some ((out, err), w1) /\
    store w1 = store w /\
    (forall c, c <> mRedisRetry r -> counter w1 c = counter w c) /\
    ((exists e, out = None /\ err = Some e) \/
     (exists v, out = Some (AppendInt None v) /\ err = None)).
Proof.
  intros [HR Hfuel]. rewrite apply_operator_body.
  set (cmd := operator_cmd op key value).
  destruct (operator_body_returns r cmd fuel w HR Hfuel) as [[[out err] w1] Hrun].
  destruct (operator_body_sound r cmd fuel w _ w1 Hrun)
    as (n & _ & Hout & _ & _ & Hst & _ & Hcnt).
  exists out, err, w1. split; [done|]. split; [done|]. split.
  - intros c Hc. rewrite Hcnt. by destruct (decide (mRedisRetry r = c)).
  - unfold operator_result in Hout.
    destruct (snd (respond (client r) (length (issued w) + n) cmd)) as [e|].
    + left. exists e. by injection Hout as -> ->.
    + right. eexists. by injection Hout as -> ->.
Qed.

Lemma Set_is_put (m : Message) (i : nat) (b : bytes) (s : Store) (p0 : Part) :
  get_part m i s = Some p0 -> Set_ m i b s = put_part m i (replaced b p0) s.
Proof. unfold Set_. by intros ->. Qed.

Lemma FlagErr_is_put (m : Message) (i : nat) (e : error) (s : Store) (p0 : Part) :
  get_part m i s = Some p0 -> FlagErr m i e s = put_part m i (flagged e p0) s.
Proof. unfold FlagErr. by intros ->. Qed.

Lemma count_failed_cons (i : nat) (err : option error)
    (outs : list (nat * option error)) :
  count_failed ((i, err) :: outs) =
  (match err with Some _ => 1 | None => 0 end + count_failed outs)%nat.
Proof.
  unfold count_failed. cbn [List.filter snd].
  destruct err as [e|].
  - rewrite bool_decide_eq_true_2 by (by eexists). done.
  - rewrite bool_decide_eq_false_2 by (by intros [? ?]). done.
Qed.

Section Visit.

Variable fuel : nat.
Variable r : Redis.
Variable newMsg : Message.
Variable n : nat.
Hypothesis Hfuel : fuel_ok r fuel.

(** [proc] on a part of the batch: it returns, with the operator's error
    and the store untouched, or with nil and the payload replaced. *)
Lemma proc_spec (i : nat) (w : World) (p0 : Part) :
  Len newMsg (store w) = Some n -> (i < n)%nat ->
  get_part newMsg i (store w) = Some p0 ->
  exists err w',
    proc fuel r newMsg i w = Some (err, w') /\
    (mErr r <> mRedisRetry r ->
     counter w' (mErr r) =
       counter w (mErr r) + match err with Some _ => 1 | None => 0 end) /\
    match err with
    | Some e => store w' = store w
    | None => exists v,
        put_part newMsg i (replaced (AppendInt None v) p0) (store w) = Some (store w')
    end.
Proof.
  intros Hlen Hi Hget. unfold proc, Get. rewrite Hget. simpl.
  destruct (apply_operator_total (operator r) fuel r
              (Expression_String (key r) i (default [] (view newMsg (store w))))
              (payload p0) w Hfuel)
    as (out & err & w1 & Hop & Hst & Hcnt & Hshape).
  rewrite Hop. simpl.
  destruct Hshape as [(e & -> & ->)|(v & -> & ->)].
  - eexists (Some e), _. split; [done|]. split; [|done].
    intros Hne. unfold Logf. simpl.
    change (counter (Incr (mErr r) 1 w1) (mErr r) = counter w (mErr r) + 1).
    rewrite counter_Incr_eq, Hcnt by done. done.
  - simpl. rewrite Hst, (Set_is_put newMsg i _ (store w) p0 Hget).
    destruct (put_part_is_Some newMsg i (replaced (AppendInt None v) p0)
                (store w) n Hlen Hi) as [s' Hput].
    rewrite Hput. simpl. eexists None, _. split; [done|]. split.
    + intros Hne. simpl.
      change (counter w1 (mErr r) = counter w (mErr r) + 0).
      rewrite Hcnt by done. lia.
    + exists v. done.
Qed.

(** The visit of the targeted parts, one after the other. *)
Lemma iterate_parts_spec (idxs : list nat) :
  forall w : World,
    NoDup idxs -> (forall i, i ∈ idxs -> (i < n)%nat) ->
    wf_store (store w) -> Len newMsg (store w) = Some n ->
    exists outs w',
      iterate_parts TypeRedis idxs newMsg (proc fuel r newMsg) w = Some (outs, w') /\
      map fst outs = idxs /\
      wf_store (store w') /\
      frame newMsg (store w) (store w') /\
      (mErr r <> mRedisRetry r ->
       counter w' (mErr r) = counter w (mErr r) + Z.of_nat (count_failed outs)) /\
      (forall j, j ∉ idxs -> get_part newMsg j (store w') = get_part newMsg j (store w)) /\
      (forall i err, (i, err) ∈ outs ->
         exists p0 p, get_part newMsg i (store w) = Some p0 /\
                      get_part newMsg i (store w') = Some p /\
                      part_outcome err p0 p).
Proof.
  induction idxs as [|i rest IH]; intros w Hnd Hin Hwf Hlen.
  - exists [], w. simpl. split; [done|]. split; [done|]. split; [done|].
    split; [apply frame_refl|]. split; [intros _; unfold count_failed; simpl; lia|].
    split; [done|]. intros i err H. by apply elem_of_nil in H.
  - apply NoDup_cons in Hnd as [Hni Hnd].
    assert (Hi : (i < n)%nat) by (apply Hin; apply list_elem_of_here).
    destruct (get_part_is_Some newMsg i (store w) n Hwf Hlen Hi) as [p0 Hget].
    set (w1 := set_spans w (spans w ++ [SpanStart TypeRedis i])).
    destruct (proc_spec i w1 p0 Hlen Hi Hget) as (err & w2 & Hproc & Hcnt2 & Hst2).
    (* the store after the failure, if any, has been recorded *)
    assert (Hflag : exists w3 p,
              match err with
              | Some e => set_store w2 <$> FlagErr newMsg i e (store w2)
              | None => Some w2
              end = Some w3 /\
              put_part newMsg i p (store w) = Some (store w3) /\
              part_outcome err p0 p /\
              counter w3 (mErr r) = counter w2 (mErr r)).
    { destruct err as [e|].
      - rewrite Hst2. change (store w1) with (store w).
        rewrite (FlagErr_is_put newMsg i e (store w) p0 Hget).
        destruct (put_part_is_Some newMsg i (flagged e p0) (store w) n Hlen Hi)
          as [s' Hput].
        rewrite Hput. simpl. by eexists _, (flagged e p0).
      - destruct Hst2 as [v Hput]. change (store w1) with (store w) in Hput.
        eexists w2, _. split; [done|]. split; [done|]. split; [by exists v|done]. }
    destruct Hflag as (w3 & p & Hw3 & Hput & Hout & Hcnt3).
    set (w4 := set_spans w3 (spans w3 ++ [SpanFinish TypeRedis i])).
    assert (Hwf4 : wf_store (store w4)) by (by apply (put_part_wf _ _ _ _ _ Hput)).
    assert (Hfr4 : frame newMsg (store w) (store w4))
      by (by apply (put_part_frame _ _ _ _ _ Hput)).
    assert (Hlen4 : Len newMsg (store w4) = Some n).
    { destruct Hfr4 as (_ & _ & Hl). by rewrite Hl. }
    destruct (IH w4 Hnd) as (outs & w5 & Hrun & Hfst & Hwf5 & Hfr5 & Hcnt5 & Hother & Houts).
    { intros j Hj. apply Hin. by apply list_elem_of_further. }
    { done. }
    { done. }
    exists ((i, err) :: outs), w5.
    split.
    { simpl. fold w1. rewrite Hproc. simpl. rewrite Hw3. simpl. fold w4.
      rewrite Hrun. done. }
    split; [simpl; by rewrite Hfst|]. split; [done|].
    split; [by apply (frame_trans _ _ (store w4))|].
    split.
    { intros Hne. rewrite (Hcnt5 Hne).
      change (counter w4 (mErr r)) with (counter w3 (mErr r)).
      rewrite Hcnt3, (Hcnt2 Hne).
      change (counter w1 (mErr r)) with (counter w (mErr r)).
      rewrite count_failed_cons. destruct err; lia. }
    split.
    { intros j Hj. apply not_elem_of_cons in Hj as [Hji Hj].
      rewrite (Hother j Hj). change (store w4) with (store w3).
      by apply (put_part_get_ne _ _ _ _ _ Hput). }
    intros i' err' Hin'. apply elem_of_cons in Hin' as [[= -> ->]|Hin'].
    + exists p0, p. split; [done|]. split; [|done].
      rewrite (Hother i Hni). change (store w4) with (store w3).
      by apply (put_part_get_eq _ _ _ _ _ Hput).
    + destruct (Houts i' err' Hin') as (q0 & q & Hq0 & Hq & Hqout).
      exists q0, q. split; [|done].
      assert (Hne : i' <> i).
      { intros ->. apply Hni. rewrite <- Hfst.
        apply list_elem_of_fmap. by exists (i, err'). }
      rewrite <- Hq0. change (store w4) with (store w3). symmetry.
      by apply (put_part_get_ne _ _ _ _ _ Hput).
Qed.

End Visit.

(** ** [ProcessMessage] *)

Lemma targeted_NoDup (parts : list Z) (n : nat) : NoDup (targeted parts n).
Proof.
  unfold targeted. apply NoDup_ListNoDup, List.NoDup_filter, NoDup_ListNoDup, NoDup_seq.
Qed.

Lemma targeted_lt (parts : list Z) (n i : nat) : i ∈ targeted parts n -> (i < n)%nat.
Proof.
  unfold targeted. rewrite list_elem_of_In, filter_In, <- list_elem_of_In, elem_of_seq.
  lia.
Qed.

Lemma Len_handles (m : Message) (s : Store) (n : nat) :
  Len m s = Some n -> exists hs, handles m s = Some hs /\ length hs = n.
Proof.
  unfold Len. destruct (handles m s) as [hs|]; [|done].
  intros [= <-]. by exists hs.
Qed.

(** The run of [ProcessMessage], with the store before and after the visit
    of the parts laid open. *)
Lemma ProcessMessage_run (fuel : nat) (r : Redis) (msg : Message) (w : World) (n : nat) :
  wf_store (store w) -> Len msg (store w) = Some n -> fuel_ok r fuel ->
  exists newMsg s1 outs w3 w',
    ProcessMessage fuel r msg w = Some (([newMsg], None), w') /\
    Copy msg (store w) = Some (newMsg, s1) /\
    newMsg <> msg /\
    IteratePartsWithSpan TypeRedis (parts r) newMsg (proc fuel r newMsg)
      (set_store (Incr (mCount r) 1 w) s1) = Some (outs, w3) /\
    store w' = store w3 /\
    map fst outs = targeted (parts r) n /\
    wf_store s1 /\ arena s1 = arena (store w) /\
    (forall m0, m0 <> newMsg -> handles m0 s1 = handles m0 (store w)) /\
    frame newMsg s1 (store w3) /\
    Len newMsg (store w') = Some n /\
    (distinct_counters r ->
     counter w' (mErr r) = counter w (mErr r) + Z.of_nat (count_failed outs)) /\
    (forall j, j ∉ targeted (parts r) n ->
       get_part newMsg j (store w') = get_part msg j (store w)) /\
    (forall i err, (i, err) ∈ outs ->
       exists p0 p, get_part msg i (store w) = Some p0 /\
                    get_part newMsg i (store w') = Some p /\
                    part_outcome err p0 p).
Proof.
  intros Hwf Hlen Hfuel.
  destruct (Len_handles msg (store w) n Hlen) as (hs & Hhs & Hn).
  destruct (Copy_spec msg (store w) hs Hhs)
    as (s1 & Hcopy & Hnew & Har & Hhnew & Hhold & Hwf1 & Hget1).
  set (newMsg := length (batches (store w))) in *.
  set (w2 := set_store (Incr (mCount r) 1 w) s1).
  assert (Hlen2 : Len newMsg (store w2) = Some n).
  { unfold Len. simpl. rewrite Hhnew. simpl. by rewrite Hn. }
  destruct (iterate_parts_spec fuel r newMsg n Hfuel (targeted (parts r) n) w2)
    as (outs & w3 & Hrun & Hfst & Hwf3 & Hfr & Hcnt & Hother & Houts).
  { apply targeted_NoDup. }
  { intros i. apply targeted_lt. }
  { by apply Hwf1. }
  { done. }
  assert (Hlen3 : Len newMsg (store w3) = Some n).
  { destruct Hfr as (_ & _ & Hl). by rewrite Hl. }
  assert (Hiter : IteratePartsWithSpan TypeRedis (parts r) newMsg
                    (proc fuel r newMsg) w2 = Some (outs, w3)).
  { unfold IteratePartsWithSpan. rewrite Hlen2. simpl. done. }
  eexists newMsg, s1, outs, w3, _.
  split.
  { unfold ProcessMessage.
    change (store (Incr (mCount r) 1 w)) with (store w).
    rewrite Hcopy. simpl. fold w2. rewrite Hiter. simpl.
    change (store (Incr (mBatchSent r) 1 w3)) with (store w3).
    rewrite Hlen3. simpl. done. }
  split; [done|]. split; [done|]. split; [done|]. split; [done|].
  split; [done|]. split; [by apply Hwf1|]. split; [done|]. split; [done|].
  split; [done|]. split; [done|]. split.
  { intros (Hc1 & Hc2 & Hc3 & Hc4).
    rewrite counter_Incr_ne by done. rewrite counter_Incr_ne by done.
    rewrite (Hcnt Hc4). f_equal.
    change (counter w2 (mErr r)) with (counter (Incr (mCount r) 1 w) (mErr r)).
    by rewrite counter_Incr_ne. }
  split.
  { intros j Hj. simpl. rewrite (Hother j Hj). apply Hget1. }
  intros i err Hin. destruct (Houts i err Hin) as (p0 & p & Hp0 & Hp & Hout).
  exists p0, p. split; [|done]. rewrite <- Hp0. symmetry. apply Hget1.
Qed.

(** C6: [ProcessMessage] returns one message and a nil response whatever
    the operator does.  Every targeted part is visited, in order; a part
    whose operator invocation failed keeps its payload and metadata and is
    flagged with the error, a part whose invocation succeeded carries the
    decimal result; the error counter goes up by the number of failed
    parts; the other parts are as in the input. *)
Theorem ProcessMessage_isolates_part_failures (fuel : nat) (r : Redis)
    (msg : Message) (w : World) (n : nat) :
  wf_store (store w) -> Len msg (store w) = Some n ->
  fuel_ok r fuel -> distinct_counters r ->
  exists newMsg s1 outs w3 w',
    ProcessMessage fuel r msg w = Some (([newMsg], None), w') /\
    Copy msg (store w) = Some (newMsg, s1) /\
    IteratePartsWithSpan TypeRedis (parts r) newMsg (proc fuel r newMsg)
      (set_store (Incr (mCount r) 1 w) s1) = Some (outs, w3) /\
    map fst outs = targeted (parts r) n /\
    Len newMsg (store w') = Some n /\
    counter w' (mErr r) = counter w (mErr r) + Z.of_nat (count_failed outs) /\
    (forall i e, (i, Some e) ∈ outs ->
       exists p0, get_part msg i (store w) = Some p0 /\
                  get_part newMsg i (store w') = Some (flagged e p0) /\
                  Get newMsg i (store w') = Get msg i (store w)) /\
    (forall i, (i, None) ∈ outs ->
       exists p0 v, get_part msg i (store w) = Some p0 /\
                    get_part newMsg i (store w')
                      = Some (replaced (AppendInt None v) p0)) /\
    (forall j, j ∉ targeted (parts r) n ->
       get_part newMsg j (store w') = get_part msg j (store w)).
Proof.
  intros Hwf Hlen Hfuel Hdist.
  destruct (ProcessMessage_run fuel r msg w n Hwf Hlen Hfuel)
    as (newMsg & s1 & outs & w3 & w' & Hrun & Hcopy & _ & Hiter & _ & Hfst & _ & _
        & _ & _ & Hlen' & Hcnt & Hother & Houts).
  exists newMsg, s1, outs, w3, w'.
  split; [done|]. split; [done|]. split; [done|]. split; [done|].
  split; [done|]. split; [by apply Hcnt|]. split; [|split; [|done]].
  - intros i e Hin. destruct (Houts i (Some e) Hin) as (p0 & p & Hp0 & Hp & Hout).
    simpl in Hout. subst p. exists p0. split; [done|]. split; [done|].
    unfold Get. by rewrite Hp, Hp0.
  - intros i Hin. destruct (Houts i None Hin) as (p0 & p & Hp0 & Hp & [v Hout]).
    subst p. by exists p0, v.
Qed.

(** C9: [ProcessMessage] works on a copy: the handle it returns is a new
    one, and the input message, like every other message of the store, has
    the same parts, payloads, metadata and flags after the call as before. *)
Theorem ProcessMessage_leaves_input_unchanged (fuel : nat) (r : Redis)
    (msg : Message) (w : World) (n : nat) :
  wf_store (store w) -> Len msg (store w) = Some n -> fuel_ok r fuel ->
  exists newMsg w',
    ProcessMessage fuel r msg w = Some (([newMsg], None), w') /\
    newMsg <> msg /\
    handles msg (store w') = handles msg (store w) /\
    view msg (store w') = view msg (store w) /\
    (forall j, get_part msg j (store w') = get_part msg j (store w)) /\
    (forall m0, m0 <> newMsg ->
       handles m0 (store w') = handles m0 (store w) /\
       view m0 (store w') = view m0 (store w)).
Proof.
  intros Hwf Hlen Hfuel.
  destruct (ProcessMessage_run fuel r msg w n Hwf Hlen Hfuel)
    as (newMsg & s1 & outs & w3 & w' & Hrun & Hcopy & Hne & _ & Hst & _ & Hwf1 & Har
        & Hhold & Hfr & _).
  assert (Hview1 : forall m0, m0 <> newMsg -> view m0 s1 = view m0 (store w)).
  { intros m0 Hm0. unfold view. by rewrite (Hhold m0 Hm0), Har. }
  assert (Hget1 : forall m0 j, m0 <> newMsg -> get_part m0 j s1 = get_part m0 j (store w)).
  { intros m0 j Hm0. unfold get_part. by rewrite (Hhold m0 Hm0), Har. }
  assert (Hall : forall m0, m0 <> newMsg ->
            handles m0 (store w') = handles m0 (store w) /\
            view m0 (store w') = view m0 (store w)).
  { intros m0 Hm0. rewrite Hst. split.
    - destruct Hfr as (_ & Hh & _). by rewrite (Hh m0 Hm0), Hhold.
    - by rewrite (view_frame newMsg m0 s1 (store w3) Hwf1 Hfr Hm0), Hview1. }
  exists newMsg, w'. split; [done|]. split; [done|].
  split; [by apply Hall|]. split; [by apply Hall|]. split; [|done].
  intros j. rewrite Hst.
  rewrite (get_part_frame newMsg msg j s1 (store w3) Hwf1 Hfr) by done.
  by apply Hget1.
Qed.

(** ** The step machine runs the operator body *)

Lemma sys_run_app (r : Redis) (cmd : Cmd) (evs1 evs2 : list Event) (s : Sys) :
  sys_run r cmd (evs1 ++ evs2) s = sys_run r cmd evs2 (sys_run r cmd evs1 s).
Proof. unfold sys_run. apply fold_left_app. Qed.

Lemma sys_run_ticks (r : Redis) (cmd : Cmd) (n : nat) :
  forall (w : World) (i : Z) (remaining : Duration) (b : bool),
    0 <= remaining ->
    sys_run r cmd (replicate n EvTick) (mkSys w (Sleeping i remaining) b)
    = mkSys (set_clock w (clock w + Z.of_nat n))
            (Sleeping i (Z.max 0 (remaining - Z.of_nat n))) b.
Proof.
  induction n as [|n IH]; intros w i remaining b Hrem.
  - simpl. f_equal.
    + destruct w. unfold set_clock. simpl. f_equal. lia.
    + f_equal. lia.
  - cbn [replicate sys_run fold_left sys_step sys_world sys_op closeRequested op_tick].
    change (fold_left (λ s ev, sys_step r cmd ev s) (replicate n EvTick) ?s)
      with (sys_run r cmd (replicate n EvTick) s).
    rewrite IH by lia. f_equal.
    + unfold set_clock. simpl. f_equal. lia.
    + f_equal. lia.
Qed.

(** Every run of the retry loop is a run of the step machine: the goroutine
    runs to the sleep, the retry period passes, the goroutine runs on. *)
Lemma retry_loop_is_a_run (r : Redis) (cmd : Cmd) (fuel : nat) :
  forall (i res : Z) (err : option error) (w : World) a w' (b : bool),
    retry_loop fuel r cmd i res err w = Some (a, w') ->
    exists evs,
      Forall (λ ev, is_close ev = false) evs /\
      sys_run r cmd evs (mkSys w (AtGuard i res err) b)
      = mkSys w' (Returned (operator_result a)) b.
Proof.
  induction fuel as [|fuel IH]; intros i res err w a w' b Hrun; [done|].
  destruct err as [e|].
  - simpl in Hrun.
    destruct (i <=? Retries (cRedis (conf r))) eqn:Hguard.
    + unfold call in Hrun. simpl in Hrun.
      destruct (respond (client r) (length (issued w)) cmd) as [res1 err1] eqn:Hans.
      destruct (IH _ _ _ _ _ _ b Hrun) as (evs & Hnc & Hevs).
      exists ([EvRun] ++ replicate (Z.to_nat (Z.max 0 (retryPeriod r))) EvTick
              ++ [EvRun] ++ evs).
      split.
      { apply Forall_app. split; [by repeat constructor|].
        apply Forall_app. split; [by apply Forall_replicate|].
        apply Forall_app. split; [by repeat constructor|done]. }
      rewrite !sys_run_app.
      assert (H1 : sys_run r cmd [EvRun] (mkSys w (AtGuard i res (Some e)) b)
                   = mkSys (Logf (retry_log_line e) w)
                       (Sleeping i (Z.max 0 (retryPeriod r))) b).
      { simpl. by rewrite Hguard. }
      rewrite H1, sys_run_ticks by lia.
      rewrite Z2Nat.id by lia.
      replace (Z.max 0 (Z.max 0 (retryPeriod r) - Z.max 0 (retryPeriod r))) with 0 by lia.
      match goal with
      | |- sys_run r cmd evs (sys_run r cmd [EvRun] ?s0) = _ =>
          assert (H2 : sys_run r cmd [EvRun] s0
                       = mkSys (set_issued
                                  (Incr (mRedisRetry r) 1
                                     (After (retryPeriod r) (Logf (retry_log_line e) w)))
                                  (issued w ++ [cmd]))
                               (AtGuard (wrap64 (i + 1)) res1 err1) b)
      end.
      { simpl. unfold call. simpl. rewrite Hans. done. }
      rewrite H2. exact Hevs.
    + injection Hrun as <- <-. exists [EvRun]. split; [by repeat constructor|].
      simpl. by rewrite Hguard.
  - injection Hrun as <- <-. exists [EvRun]. split; [by repeat constructor|]. done.
Qed.

(** The operator body as a whole. *)
Lemma operator_body_is_a_run (r : Redis) (cmd : Cmd) (fuel : nat) (w : World) out w' :
  operator_body fuel r cmd w = Some (out, w') ->
  exists evs,
    Forall (λ ev, is_close ev = false) evs /\
    sys_run r cmd evs (sys_start r cmd w) = mkSys w' (Returned out) false.
Proof.
  rewrite operator_body_unfold. unfold sys_start, call.
  destruct (respond (client r) (length (issued w)) cmd) as [res err]. simpl.
  destruct (retry_loop fuel r cmd 0 res err _) as [[a w1]|] eqn:Hloop; [|done].
  intros [= <- <-]. by apply retry_loop_is_a_run with (fuel := fuel).
Qed.

(** ** The scenarios, run *)

Lemma world1_wf : wf_store (store world1).
Proof.
  intros [|m] hs h Hhs Hin; [|by destruct m].
  injection Hhs as <-.
  apply elem_of_cons in Hin as [->|Hin]; [simpl; lia|].
  apply elem_of_cons in Hin as [->|Hin]; [simpl; lia|].
  by apply elem_of_nil in Hin.
Qed.

Lemma ProcessMessage_isolates_part_failures_witness :
  wf_store (store world1) /\ Len 0%nat (store world1) = Some 2%nat /\
  fuel_ok (scard_redis client_failing) 5 /\
  distinct_counters (scard_redis client_failing) /\
  exists newMsg w' outs,
    ProcessMessage 5 (scard_redis client_failing) 0%nat world1
      = Some (([newMsg], None), w') /\
    map fst outs = [0%nat; 1%nat] /\
    counter w' "error" = counter world1 "error" + Z.of_nat (count_failed outs).
Proof.
  assert (Hwf : wf_store (store world1)) by apply world1_wf.
  assert (Hlen : Len 0%nat (store world1) = Some 2%nat) by reflexivity.
  assert (Hfuel : fuel_ok (scard_redis client_failing) 5).
  { split; simpl; [unfold max_int64|]; lia. }
  assert (Hdist : distinct_counters (scard_redis client_failing)).
  { repeat split; discriminate. }
  split; [done|]. split; [done|]. split; [done|]. split; [done|].
  destruct (ProcessMessage_isolates_part_failures 5 (scard_redis client_failing)
              0%nat world1 2%nat Hwf Hlen Hfuel Hdist)
    as (newMsg & s1 & outs & w3 & w' & Hrun & _ & _ & Hfst & _ & Hcnt & _).
  exists newMsg, w', outs. split; [exact Hrun|]. split; [exact Hfst|exact Hcnt].
Defined.

Lemma ProcessMessage_leaves_input_unchanged_witness :
  wf_store (store world1) /\ Len 0%nat (store world1) = Some 2%nat /\
  fuel_ok (scard_redis client_sets) 5 /\
  exists newMsg w',
    ProcessMessage 5 (scard_redis client_sets) 0%nat world1
      = Some (([newMsg], None), w') /\
    newMsg <> 0%nat /\
    view 0%nat (store w') = view 0%nat (store world1).
Proof.
  assert (Hwf : wf_store (store world1)) by apply world1_wf.
  assert (Hlen : Len 0%nat (store world1) = Some 2%nat) by reflexivity.
  assert (Hfuel : fuel_ok (scard_redis client_sets) 5).
  { split; simpl; [unfold max_int64|]; lia. }
  split; [done|]. split; [done|]. split; [done|].
  destruct (ProcessMessage_leaves_input_unchanged 5 (scard_redis client_sets)
              0%nat world1 2%nat Hwf Hlen Hfuel)
    as (newMsg & w' & Hrun & Hne & _ & Hview & _).
  exists newMsg, w'. split; [exact Hrun|]. split; [exact Hne|exact Hview].
Defined.

(** The cardinality scenario: key ["s1"] has four members and ["s2"] does
    not exist; the output parts are ["4"] and ["0"], no retry is counted,
    and the input batch still reads ["a"], ["b"]. *)
Example scenario_cardinality :
  exists w',
    ProcessMessage 5 (scard_redis client_sets) 0%nat world1
      = Some (([1%nat], None), w') /\
    payload <$> default [] (view 1%nat (store w'))
      = [list_byte_of_string "4"; list_byte_of_string "0"] /\
    payload <$> default [] (view 0%nat (store w'))
      = [list_byte_of_string "a"; list_byte_of_string "b"] /\
    counter w' "redis.retry" = 0 /\ counter w' "error" = 0 /\
    issued w' = [CmdSCard "s1"; CmdSCard "s2"].
Proof. eexists. split; [vm_compute; reflexivity|]. vm_compute. repeat split. Qed.

(** The same with the store unreachable and the default three retries: each
    part is tried five times (four retries), both parts are flagged and keep
    their payloads, and the error counter reads two. *)
Example scenario_unreachable :
  exists w',
    ProcessMessage 5 (scard_redis client_failing) 0%nat world1
      = Some (([1%nat], None), w') /\
    default [] (view 1%nat (store w'))
      = [mkPart (list_byte_of_string "a") ∅ (Some "connection refused");
         mkPart (list_byte_of_string "b") ∅ (Some "connection refused")] /\
    counter w' "error" = 2 /\
    counter w' "redis.retry" = 8 /\
    length (issued w') = 10%nat.
Proof. eexists. split; [vm_compute; reflexivity|]. vm_compute. repeat split. Qed.

(** An operator configured with no retries at all still retries once. *)
Example zero_retries_two_attempts :
  exists e w',
    apply_operator OpSCard 2 (sample_redis client_failing 0 OpSCard) "s1" [] world0
      = Some ((None, Some e), w') /\
    issued w' = [CmdSCard "s1"; CmdSCard "s1"] /\
    counter w' "redis.retry" = 1.
Proof. eexists _, _. split; [vm_compute; reflexivity|]. vm_compute. by split. Qed.

(** ** The largest [int] as [Retries] *)

Lemma wrap64_range (z : Z) : min_int64 <= wrap64 z <= max_int64.
Proof.
  unfold wrap64, min_int64, max_int64.
  pose proof (Z.mod_pos_bound (z + 2 ^ 63) (2 ^ 64) ltac:(lia)). lia.
Qed.

(** With [Retries = MaxInt64] the guard [i <= Retries] holds for every
    [int], [i++] wraps, and a call that keeps failing is retried for ever:
    no amount of fuel lets the loop return. *)
Lemma retry_loop_max_int_never_returns (r : Redis) (cmd : Cmd) (fuel : nat) :
  forall (i res : Z) (e : error) (w : World),
    Retries (cRedis (conf r)) = max_int64 ->
    (forall j, is_Some (snd (respond (client r) j cmd))) ->
    i <= max_int64 ->
    retry_loop fuel r cmd i res (Some e) w = None.
Proof.
  induction fuel as [|fuel IH]; intros i res e w HR Hfail Hi; [done|].
  rewrite retry_loop_S, HR.
  destruct (Z.leb_spec i max_int64) as [_|]; [|lia].
  destruct (Hfail (length (issued w))) as [e1 He1]. rewrite He1.
  apply IH; [done|done|]. apply wrap64_range.
Qed.

(** * Further properties of the code *)

(** ** The cost of an operator invocation *)

Transparent retried.

Lemma retried_logged r cmd e w :
  logged (retried r cmd e w) = logged w ++ [retry_log_line e].
Proof. done. Qed.

Lemma retried_clientClosed r cmd e w :
  clientClosed (retried r cmd e w) = clientClosed w.
Proof. done. Qed.

Opaque retried.

(** The line logged for the answer to a call that failed. *)
Lemma retry_loop_logged (r : Redis) (cmd : Cmd) (fuel : nat) :
  forall (i res : Z) (err : option error) (w : World) a w',
    (0 < length (issued w))%nat ->
    err = snd (respond (client r) (length (issued w) - 1) cmd) ->
    retry_loop fuel r cmd i res err w = Some (a, w') ->
    logged w' = logged w ++
      map (λ j, retry_log_line
                  (default "" (snd (respond (client r) (length (issued w) - 1 + j) cmd))))
          (seq 0 (length (issued w') - length (issued w))) /\
    clientClosed w' = clientClosed w.
Proof.
  induction fuel as [|fuel IH]; intros i res err w a w' Hpos Herr Hrun; [done|].
  destruct err as [e|].
  - rewrite retry_loop_S in Hrun.
    destruct (i <=? Retries (cRedis (conf r))).
    + pose proof (retry_loop_sound r cmd fuel _ _ _ _ _ _ Hrun) as (n & Hiss & _).
      apply IH in Hrun as [Hlog Hcl].
      * rewrite retried_issued in Hiss.
        rewrite retried_issued, length_app in Hlog. simpl in Hlog.
        rewrite retried_logged in Hlog. rewrite retried_clientClosed in Hcl.
        split; [|done].
        assert (Hlen : length (issued w') = (length (issued w) + 1 + n)%nat).
        { rewrite Hiss, !length_app, length_replicate. simpl. lia. }
        rewrite Hlog, Hlen.
        replace (length (issued w) + 1 + n - (length (issued w) + 1))%nat with n by lia.
        replace (length (issued w) + 1 + n - length (issued w))%nat with (S n) by lia.
        rewrite <- app_assoc. f_equal. cbn [seq map app].
        rewrite Nat.add_0_r, <- Herr. simpl. f_equal.
        rewrite <- seq_shift, map_map. apply map_ext. intros j.
        do 4 f_equal. lia.
      * rewrite retried_issued, length_app. simpl. lia.
      * rewrite retried_issued, length_app. simpl. f_equal. f_equal. lia.
    + injection Hrun as <- <-. rewrite Nat.sub_diag. simpl. by rewrite app_nil_r.
  - injection Hrun as <- <-. rewrite Nat.sub_diag. simpl. by rewrite app_nil_r.
Qed.

(** What a returning operator body has done to the world. *)
Lemma operator_body_effects (r : Redis) (cmd : Cmd) (fuel : nat) (w : World) out w' :
  operator_body fuel r cmd w = Some (out, w') ->
  exists n : nat,
    issued w' = issued w ++ replicate (S n) cmd /\
    clock w' = clock w + Z.of_nat n * Z.max 0 (retryPeriod r) /\
    logged w' = logged w ++
      map (λ j, retry_log_line
                  (default "" (snd (respond (client r) (length (issued w) + j) cmd))))
          (seq 0 n) /\
    (forall c, counter w' c =
               if decide (mRedisRetry r = c) then counter w c + Z.of_nat n
               else counter w c) /\
    store w' = store w /\ spans w' = spans w /\ clientClosed w' = clientClosed w.
Proof.
  intros Hrun.
  destruct (operator_body_sound r cmd fuel w out w' Hrun)
    as (n & Hiss & _ & _ & Hclk & Hst & Hsp & Hcnt).
  exists n. split; [done|]. split; [done|]. split; [|split; [done|split; [done|]]].
  - revert Hrun. rewrite operator_body_unfold.
    destruct (retry_loop fuel r cmd 0 _ _ _) as [[a w1]|] eqn:Hloop; [|done].
    intros [= _ <-].
    apply retry_loop_logged in Hloop as [Hlog _].
    + simpl in Hlog. rewrite Hlog, Hiss, !length_app, length_replicate. simpl.
      replace (length (issued w) + S n - (length (issued w) + 1))%nat with n by lia.
      f_equal. apply map_ext. intros j. do 4 f_equal. lia.
    + simpl. rewrite length_app. simpl. lia.
    + simpl. rewrite length_app. simpl. do 2 f_equal. lia.
  - revert Hrun. rewrite operator_body_unfold.
    destruct (retry_loop fuel r cmd 0 _ _ _) as [[a w1]|] eqn:Hloop; [|done].
    intros [= _ <-].
    apply retry_loop_logged in Hloop as [_ Hcl].
    + split; [done|]. by rewrite Hcl.
    + simpl. rewrite length_app. simpl. lia.
    + simpl. rewrite length_app. simpl. do 2 f_equal. lia.
Qed.



(** ** How many attempts *)

(** The loop counter against the guard: the loop never goes round more
    often than the guard allows, and it gives up only when the guard fails. *)
Lemma retry_loop_guard (r : Redis) (cmd : Cmd) (fuel : nat) :
  forall (i res : Z) (err : option error) (w : World) a w',
    Retries (cRedis (conf r)) < max_int64 -> 0 <= i ->
    retry_loop fuel r cmd i res err w = Some (a, w') ->
    i + (Z.of_nat (length (issued w')) - Z.of_nat (length (issued w)))
      <= Z.max i (Retries (cRedis (conf r)) + 1) /\
    (is_Some (snd a) ->
     Retries (cRedis (conf r))
       < i + (Z.of_nat (length (issued w')) - Z.of_nat (length (issued w)))).
Proof.
  induction fuel as [|fuel IH]; intros i res err w a w' HR Hi Hrun; [done|].
  destruct err as [e|].
  - rewrite retry_loop_S in Hrun.
    destruct (Z.leb_spec i (Retries (cRedis (conf r)))) as [Hle|Hgt].
    + rewrite wrap64_small in Hrun by (unfold min_int64, max_int64 in *; lia).
      apply IH in Hrun as [Hub Hlb]; [|done|lia].
      rewrite retried_issued, length_app in Hub, Hlb. simpl in Hub, Hlb.
      split; [lia|]. intros Hsome. specialize (Hlb Hsome). lia.
    + injection Hrun as <- <-. split; [lia|]. intros _. lia.
  - injection Hrun as <- <-. split; [lia|]. simpl. by intros [? ?].
Qed.

(** X2: whatever the client answers, an invocation issues at least one
    call and never more than [Retries + 2] (one when [Retries] is negative). *)
Theorem attempts_bounded (op : redisOperator) (fuel : nat) (r : Redis)
    (key : string) (value : bytes) (w : World) out w' :
  Retries (cRedis (conf r)) < max_int64 ->
  apply_operator op fuel r key value w = Some (out, w') ->
  1 <= Z.of_nat (length (issued w')) - Z.of_nat (length (issued w))
    <= Z.max 1 (Retries (cRedis (conf r)) + 2).
Proof.
  intros HR. rewrite apply_operator_body, operator_body_unfold.
  destruct (retry_loop fuel r _ 0 _ _ _) as [[a w1]|] eqn:Hloop; [|done].
  intros [= _ <-].
  pose proof (retry_loop_sound r _ fuel _ _ _ _ _ _ Hloop) as (n & Hiss & _).
  apply retry_loop_guard in Hloop as [Hub _]; [|done|lia].
  simpl in Hub, Hiss. rewrite length_app in Hub. simpl in Hub.
  rewrite Hiss, !length_app, length_replicate in *. simpl in *. lia.
Qed.

Lemma attempts_bounded_witness :
  exists w',
    apply_operator OpSCard 5 (sample_redis (client_flaky 1 4) 3 OpSCard) "s1" [] world0
      = Some ((Some (AppendInt None 4), None), w') /\
    1 <= Z.of_nat (length (issued w')) - Z.of_nat (length (issued world0))
      <= Z.max 1 (3 + 2).
Proof.
  eexists. split; [vm_compute; reflexivity|].
  apply (attempts_bounded OpSCard 5 (sample_redis (client_flaky 1 4) 3 OpSCard)
           "s1" [] world0 (Some (AppendInt None 4), None)).
  - simpl. unfold max_int64. lia.
  - vm_compute. reflexivity.
Defined.

(** X3: an invocation returns an error only when the retries are used up:
    it has then made exactly [Retries + 2] attempts (one when [Retries] is
    negative), all of which failed, and the error is that of the last. *)
Theorem error_only_after_exhaustion (op : redisOperator) (fuel : nat) (r : Redis)
    (key : string) (value : bytes) (w : World) out e w' :
  Retries (cRedis (conf r)) < max_int64 ->
  apply_operator op fuel r key value w = Some ((out, Some e), w') ->
  out = None /\
  Z.of_nat (length (issued w')) - Z.of_nat (length (issued w))
    = Z.max 1 (Retries (cRedis (conf r)) + 2) /\
  (forall j, (length (issued w) <= j < length (issued w'))%nat ->
             is_Some (snd (respond (client r) j (operator_cmd op key value)))) /\
  snd (respond (client r) (length (issued w') - 1) (operator_cmd op key value)) = Some e.
Proof.
  intros HR Hrun.
  revert Hrun. rewrite apply_operator_body. set (cmd := operator_cmd op key value).
  intros Hrun.
  destruct (operator_body_sound r cmd fuel w _ w' Hrun)
    as (n & Hiss & Hout & Hprev & _).
  assert (Hlen : length (issued w') = (length (issued w) + S n)%nat).
  { by rewrite Hiss, length_app, length_replicate. }
  unfold operator_result in Hout.
  destruct (snd (respond (client r) (length (issued w) + n) cmd)) as [e'|] eqn:Hlast;
    [|done].
  injection Hout as -> ->.
  split; [done|]. split; [|split].
  - revert Hrun. rewrite operator_body_unfold.
    destruct (retry_loop fuel r cmd 0 _ _ _) as [[a w1]|] eqn:Hloop; [|done].
    intros [= Ha <-].
    apply retry_loop_guard in Hloop as [Hub Hlb]; [|done|lia].
    simpl in Hub, Hlb. rewrite length_app in Hub, Hlb. simpl in Hub, Hlb.
    assert (Hsome : is_Some (snd a)).
    { unfold operator_result in Ha. destruct (snd a); [by eexists|done]. }
    specialize (Hlb Hsome). lia.
  - intros j Hj. destruct (decide (j = length (issued w) + n)%nat) as [->|Hne].
    + rewrite Hlast. by eexists.
    + replace j with (length (issued w) + (j - length (issued w)))%nat by lia.
      apply Hprev. lia.
  - rewrite Hlen. replace (length (issued w) + S n - 1)%nat
      with (length (issued w) + n)%nat by lia. done.
Qed.

Lemma error_only_after_exhaustion_witness :
  exists w',
    apply_operator OpSCard 5 (sample_redis client_failing 3 OpSCard) "s1" [] world0
      = Some ((None, Some "connection refused"), w') /\
    Z.of_nat (length (issued w')) - Z.of_nat (length (issued world0)) = Z.max 1 (3 + 2).
Proof.
  eexists. split; [vm_compute; reflexivity|].
  apply (error_only_after_exhaustion OpSCard 5 (sample_redis client_failing 3 OpSCard)
           "s1" [] world0 None "connection refused").
  - simpl. unfold max_int64. lia.
  - vm_compute. reflexivity.
Defined.

(** X4: with a negative [Retries] an operator calls once and returns what
    that call answered: no retry, no sleep, no log line. *)
Theorem negative_retries_single_attempt (op : redisOperator) (fuel : nat) (r : Redis)
    (key : string) (value : bytes) (w : World) :
  Retries (cRedis (conf r)) < 0 -> (0 < fuel)%nat ->
  apply_operator op fuel r key value w =
  Some (operator_result (respond (client r) (length (issued w)) (operator_cmd op key value)),
        set_issued w (issued w ++ [operator_cmd op key value])).
Proof.
  intros HR Hfuel. rewrite apply_operator_body, operator_body_unfold.
  destruct fuel as [|fuel]; [lia|].
  destruct (respond (client r) (length (issued w)) _) as [res [e|]]; cbn [fst snd].
  - rewrite retry_loop_S. destruct (Z.leb_spec 0 (Retries (cRedis (conf r)))); [lia|done].
  - done.
Qed.

Lemma negative_retries_single_attempt_witness :
  apply_operator OpSCard 1 (sample_redis client_failing (-1) OpSCard) "s1" [] world0 =
  Some ((None, Some "connection refused"), set_issued world0 [CmdSCard "s1"]).
Proof.
  apply (negative_retries_single_attempt OpSCard 1
           (sample_redis client_failing (-1) OpSCard) "s1" [] world0).
  - simpl. lia.
  - lia.
Defined.

(** X5: with [Retries] the largest [int] and a call that always fails the
    invocation does not return, however much fuel it is given. *)
Theorem max_int_retries_never_return (op : redisOperator) (fuel : nat) (r : Redis)
    (key : string) (value : bytes) (w : World) :
  Retries (cRedis (conf r)) = max_int64 ->
  (forall j, is_Some (snd (respond (client r) j (operator_cmd op key value)))) ->
  apply_operator op fuel r key value w = None.
Proof.
  intros HR Hfail. rewrite apply_operator_body, operator_body_unfold.
  destruct (Hfail (length (issued w))) as [e He]. rewrite He.
  rewrite (retry_loop_max_int_never_returns r _ fuel); [done|done|done|].
  unfold max_int64. lia.
Qed.

Lemma max_int_retries_never_return_witness :
  apply_operator OpSCard 40 (sample_redis client_failing max_int64 OpSCard) "s1" [] world0
  = None.
Proof.
  apply (max_int_retries_never_return OpSCard 40
           (sample_redis client_failing max_int64 OpSCard) "s1" [] world0).
  - reflexivity.
  - intros j. simpl. by eexists.
Defined.

(** ** What [ProcessMessage] does besides the parts *)

(** [proc] taken apart: the operator ran on the payload of the part, and
    then either the error was counted and logged or the payload was set. *)
Lemma proc_inv (fuel : nat) (r : Redis) (newMsg : Message) (i : nat)
    (w : World) err w' :
  proc fuel r newMsg i w = Some (err, w') ->
  exists p0 out w1,
    get_part newMsg i (store w) = Some p0 /\
    apply_operator (operator r) fuel r
      (Expression_String (key r) i (default [] (view newMsg (store w))))
      (payload p0) w = Some ((out, err), w1) /\
    match err with
    | Some e =>
        w' = Logf (proc_log_line
                     (Expression_String (key r) i (default [] (view newMsg (store w)))) e)
               (Incr (mErr r) 1 w1)
    | None =>
        exists s', put_part newMsg i (replaced (default [] out) p0) (store w) = Some s' /\
                   w' = set_store w1 s'
    end.
Proof.
  unfold proc, Get. destruct (get_part newMsg i (store w)) as [p0|] eqn:Hget; [|done].
  simpl.
  destruct (apply_operator _ _ _ _ _ _) as [[[out err'] w1]|] eqn:Hop; [|done].
  simpl. destruct err' as [e|].
  - intros [= <- <-]. by exists p0, out, w1.
  - pose proof (operator_body_effects r _ fuel w _ w1
                  (eq_trans (eq_sym (apply_operator_body _ _ _ _ _ _)) Hop))
      as (_ & _ & _ & _ & _ & Hst & _).
    rewrite Hst, (Set_is_put newMsg i _ (store w) p0 Hget).
    destruct (put_part _ _ _ _) as [s'|] eqn:Hput; [|done].
    simpl. intros [= <- <-]. exists p0, out, w1. split; [done|]. split; [done|].
    by exists s'.
Qed.

(** A property of the world that every step of the visit carries from
    [k] visited parts to [k + 1] holds at the end for all the parts. *)
Lemma iterate_parts_invariant (P : nat -> World -> Prop) (operationName : string)
    (msg : Message) (fn : nat -> World -> option (option error * World)) :
  (forall k w l, P k w -> P k (set_spans w l)) ->
  (forall k w i e s', P k w -> FlagErr msg i e (store w) = Some s' ->
                      P k (set_store w s')) ->
  (forall k i w err w', P k w -> fn i w = Some (err, w') -> P (S k) w') ->
  forall idxs k w outs w',
    P k w -> iterate_parts operationName idxs msg fn w = Some (outs, w') ->
    P (k + length idxs)%nat w'.
Proof.
  intros Hspan Hflag Hfn. induction idxs as [|i rest IH]; intros k w outs w' HP Hrun.
  - injection Hrun as <- <-. by rewrite Nat.add_0_r.
  - simpl in Hrun.
    destruct (fn i _) as [[err w2]|] eqn:Hf; [|done]. simpl in Hrun.
    pose proof (Hfn k i _ err w2 (Hspan k w _ HP) Hf) as HP2.
    assert (H3 : exists w3, match err with
                            | Some e => set_store w2 <$> FlagErr msg i e (store w2)
                            | None => Some w2
                            end = Some w3 /\ P (S k) w3).
    { destruct err as [e|]; [|by exists w2].
      destruct (FlagErr msg i e (store w2)) as [s'|] eqn:Hfl; [|done].
      exists (set_store w2 s'). split; [done|]. by apply (Hflag (S k) w2 i e). }
    destruct H3 as (w3 & Hw3 & HP3). rewrite Hw3 in Hrun. simpl in Hrun.
    destruct (iterate_parts _ rest _ _ _) as [[outs' w5]|] eqn:Hrest; [|done].
    injection Hrun as <- <-.
    replace (k + length (i :: rest))%nat with (S k + length rest)%nat by (simpl; lia).
    apply (IH _ _ _ _ (Hspan _ _ _ HP3) Hrest).
Qed.

(** The run of [ProcessMessage] down to the visit of the parts. *)
Lemma ProcessMessage_visit (fuel : nat) (r : Redis) (msg : Message) (w : World)
    (n : nat) :
  wf_store (store w) -> Len msg (store w) = Some n -> fuel_ok r fuel ->
  exists newMsg s1 outs w3,
    Copy msg (store w) = Some (newMsg, s1) /\
    iterate_parts TypeRedis (targeted (parts r) n) newMsg (proc fuel r newMsg)
      (set_store (Incr (mCount r) 1 w) s1) = Some (outs, w3) /\
    ProcessMessage fuel r msg w
      = Some (([newMsg], None),
              Incr (mSent r) (Z.of_nat n) (Incr (mBatchSent r) 1 w3)).
Proof.
  intros Hwf Hlen Hfuel.
  destruct (ProcessMessage_run fuel r msg w n Hwf Hlen Hfuel)
    as (newMsg & s1 & outs & w3 & w' & Hrun & Hcopy & _ & Hiter & Hst & _ & _ & _
        & Hh & Hfr & Hlen' & _).
  exists newMsg, s1, outs, w3. split; [done|].
  assert (Hlen1 : Len newMsg s1 = Some n).
  { destruct Hfr as (_ & _ & Hl). rewrite <- Hl, <- Hst. done. }
  unfold IteratePartsWithSpan in Hiter. simpl in Hiter. rewrite Hlen1 in Hiter.
  simpl in Hiter. split; [done|].
  unfold ProcessMessage. change (store (Incr (mCount r) 1 w)) with (store w).
  rewrite Hcopy. simpl. unfold IteratePartsWithSpan. simpl. rewrite Hlen1. simpl.
  rewrite Hiter. simpl. rewrite Hst in Hlen'.
  change (store (Incr (mBatchSent r) 1 w3)) with (store w3). rewrite Hlen'. done.
Qed.

(** The visit of the parts moves no counter but the error counter and
    the retry counter. *)
Lemma ProcessMessage_other_counters (fuel : nat) (r : Redis) (msg : Message)
    (w : World) (n : nat) :
  wf_store (store w) -> Len msg (store w) = Some n -> fuel_ok r fuel ->
  exists newMsg w3,
    ProcessMessage fuel r msg w
      = Some (([newMsg], None),
              Incr (mSent r) (Z.of_nat n) (Incr (mBatchSent r) 1 w3)) /\
    (forall c, c <> mErr r -> c <> mRedisRetry r ->
               counter w3 c = counter (Incr (mCount r) 1 w) c).
Proof.
  intros Hwf Hlen Hfuel.
  destruct (ProcessMessage_visit fuel r msg w n Hwf Hlen Hfuel)
    as (newMsg & s1 & outs & w3 & _ & Hiter & Hrun).
  exists newMsg, w3. split; [exact Hrun|].
  intros c Hc1 Hc2.
  apply (iterate_parts_invariant
           (λ _ w0, counter w0 c = counter (Incr (mCount r) 1 w) c)
           TypeRedis newMsg (proc fuel r newMsg)) with (k := O) in Hiter; try done.
  intros _ i w0 err w0' HP Hproc.
  apply proc_inv in Hproc as (p0 & out & w1 & _ & Hop & Hw').
  rewrite apply_operator_body in Hop.
  apply operator_body_effects in Hop as (m & _ & _ & _ & Hcnt & _).
  assert (H1 : counter w1 c = counter w0 c).
  { rewrite Hcnt. by destruct (decide (mRedisRetry r = c)). }
  destruct err as [e|].
  - subst w0'. change (counter (Incr (mErr r) 1 w1) c = counter (Incr (mCount r) 1 w) c).
    rewrite counter_Incr_ne by done. by rewrite H1.
  - destruct Hw' as (s' & _ & ->). change (counter w1 c = counter (Incr (mCount r) 1 w) c).
    by rewrite H1.
Qed.

(** X6: [ProcessMessage] counts one message, one batch sent and as many
    parts sent as the message has, whether or not parts failed; the visit
    of the parts moves no counter but the error and the retry counter. *)
Theorem ProcessMessage_metrics (fuel : nat) (r : Redis) (msg : Message)
    (w : World) (n : nat) :
  wf_store (store w) -> Len msg (store w) = Some n -> fuel_ok r fuel ->
  NoDup [mCount r; mErr r; mSent r; mBatchSent r; mRedisRetry r] ->
  exists newMsg w',
    ProcessMessage fuel r msg w = Some (([newMsg], None), w') /\
    counter w' (mCount r) = counter w (mCount r) + 1 /\
    counter w' (mBatchSent r) = counter w (mBatchSent r) + 1 /\
    counter w' (mSent r) = counter w (mSent r) + Z.of_nat n /\
    (forall c, c ∉ [mCount r; mErr r; mSent r; mBatchSent r; mRedisRetry r] ->
               counter w' c = counter w c).
Proof.
  intros Hwf Hlen Hfuel Hnd.
  destruct (ProcessMessage_other_counters fuel r msg w n Hwf Hlen Hfuel)
    as (newMsg & w3 & Hrun & Hkeep).
  exists newMsg, (Incr (mSent r) (Z.of_nat n) (Incr (mBatchSent r) 1 w3)).
  split; [exact Hrun|].
  repeat match goal with
         | H : NoDup (_ :: _) |- _ => apply NoDup_cons in H as [? ?]
         | H : _ ∉ _ :: _ |- _ => apply not_elem_of_cons in H as [? ?]
         end.
  split; [|split; [|split]].
  - rewrite !counter_Incr_ne by congruence.
    rewrite Hkeep by congruence. by rewrite counter_Incr_eq.
  - rewrite counter_Incr_ne by congruence. rewrite counter_Incr_eq.
    rewrite Hkeep by congruence. by rewrite counter_Incr_ne by congruence.
  - rewrite counter_Incr_eq. rewrite counter_Incr_ne by congruence.
    rewrite Hkeep by congruence. by rewrite counter_Incr_ne by congruence.
  - intros c Hc.
    repeat match goal with
           | H : _ ∉ _ :: _ |- _ => apply not_elem_of_cons in H as [? ?]
           end.
    rewrite !counter_Incr_ne by congruence.
    rewrite Hkeep by congruence. by rewrite counter_Incr_ne by congruence.
Qed.

Lemma ProcessMessage_metrics_witness :
  exists newMsg w',
    ProcessMessage 5 (scard_redis client_failing) 0%nat world1
      = Some (([newMsg], None), w') /\
    counter w' "count" = counter world1 "count" + 1 /\
    counter w' "batch.sent" = counter world1 "batch.sent" + 1 /\
    counter w' "sent" = counter world1 "sent" + Z.of_nat 2.
Proof.
  destruct (ProcessMessage_metrics 5 (scard_redis client_failing) 0%nat world1 2%nat)
    as (newMsg & w' & Hrun & H1 & H2 & H3 & _).
  - apply world1_wf.
  - reflexivity.
  - split; simpl; [unfold max_int64|]; lia.
  - simpl. rewrite !NoDup_cons, !not_elem_of_cons.
    repeat split; try discriminate; try apply not_elem_of_nil. apply NoDup_nil_2.
  - exists newMsg, w'. split; [exact Hrun|]. split; [exact H1|]. split; [exact H2|exact H3].
Defined.






(** ** One stage after the other *)

Lemma FlagErr_wf (m : Message) (i : nat) (e : error) (s s' : Store) :
  wf_store s -> FlagErr m i e s = Some s' -> wf_store s'.
Proof.
  unfold FlagErr. destruct (get_part m i s) as [p|]; [|done]. simpl.
  intros Hwf Hput. by apply (put_part_wf _ _ _ _ _ Hput).
Qed.

(** Every message but the output is as it was before the call. *)
Lemma ProcessMessage_leaves_input_unchanged_parts (fuel : nat) (r : Redis)
    (msg : Message) (w : World) (n : nat) :
  wf_store (store w) -> Len msg (store w) = Some n -> fuel_ok r fuel ->
  exists newMsg w',
    ProcessMessage fuel r msg w = Some (([newMsg], None), w') /\
    (forall m0, m0 <> newMsg ->
       handles m0 (store w') = handles m0 (store w) /\
       view m0 (store w') = view m0 (store w)).
Proof.
  intros Hwf Hlen Hfuel.
  destruct (ProcessMessage_run fuel r msg w n Hwf Hlen Hfuel)
    as (newMsg & s1 & outs & w3 & w' & Hrun & Hcopy & Hne & _ & Hst & _ & Hwf1 & Har
        & Hhold & Hfr & _).
  exists newMsg, w'. split; [done|].
  intros m0 Hm0. rewrite Hst. split.
  - destruct Hfr as (_ & Hh & _). by rewrite (Hh m0 Hm0), Hhold.
  - rewrite (view_frame newMsg m0 s1 (store w3) Hwf1 Hfr Hm0).
    unfold view. by rewrite (Hhold m0 Hm0), Har.
Qed.

(** [ProcessMessage] keeps the store well formed and the output message
    has the length of the input. *)
Lemma ProcessMessage_wf (fuel : nat) (r : Redis) (msg : Message) (w : World) (n : nat) :
  wf_store (store w) -> Len msg (store w) = Some n -> fuel_ok r fuel ->
  exists newMsg w',
    ProcessMessage fuel r msg w = Some (([newMsg], None), w') /\
    newMsg = length (batches (store w)) /\
    wf_store (store w') /\
    Len newMsg (store w') = Some n /\
    (forall m0, m0 <> newMsg ->
       handles m0 (store w') = handles m0 (store w) /\
       view m0 (store w') = view m0 (store w)).
Proof.
  intros Hwf Hlen Hfuel.
  destruct (ProcessMessage_visit fuel r msg w n Hwf Hlen Hfuel)
    as (newMsg & s1 & outs & w3 & Hcopy & Hiter & Hrun).
  destruct (ProcessMessage_run fuel r msg w n Hwf Hlen Hfuel)
    as (newMsg' & s1' & outs' & w3' & w' & Hrun' & Hcopy' & _ & _ & Hst & _ & Hwf1 & _
        & _ & _ & Hlen' & _).
  rewrite Hrun in Hrun'. injection Hrun' as <- <-.
  rewrite Hcopy in Hcopy'. injection Hcopy' as <-.
  destruct (ProcessMessage_leaves_input_unchanged_parts fuel r msg w n Hwf Hlen Hfuel)
    as (newMsg'' & w'' & Hrun'' & Hall).
  rewrite Hrun in Hrun''. injection Hrun'' as <- <-.
  exists newMsg, (Incr (mSent r) (Z.of_nat n) (Incr (mBatchSent r) 1 w3)).
  split; [done|]. split.
  { unfold Copy in Hcopy. destruct (handles msg (store w)); [|done].
    by injection Hcopy as <- _. }
  split; [|split; [done|done]].
  change (wf_store (store w3)).
  apply (iterate_parts_invariant (λ _ w0, wf_store (store w0))
           TypeRedis newMsg (proc fuel r newMsg)) with (k := O) in Hiter; try done.
  - intros _ w0 i e s' HP Hfl. by apply (FlagErr_wf newMsg i e (store w0)).
  - intros _ i w0 err w0' HP Hproc.
    apply proc_inv in Hproc as (p0 & out & w1 & _ & Hop & Hw').
    rewrite apply_operator_body in Hop.
    apply operator_body_effects in Hop as (m & _ & _ & _ & _ & Hst1 & _).
    destruct err as [e|].
    + subst w0'. change (wf_store (store w1)). by rewrite Hst1.
    + destruct Hw' as (s' & Hput & ->). by apply (put_part_wf _ _ _ _ _ Hput).
Qed.

(** X9: stages chain: the output of one [ProcessMessage] can be handed to
    the next, which returns a third message of the same length; the input
    of the first and the output of the first are both as they were. *)
Theorem ProcessMessage_chain (fuel : nat) (r1 r2 : Redis) (msg : Message)
    (w : World) (n : nat) :
  wf_store (store w) -> Len msg (store w) = Some n ->
  fuel_ok r1 fuel -> fuel_ok r2 fuel ->
  exists m1 w1 m2 w2,
    ProcessMessage fuel r1 msg w = Some (([m1], None), w1) /\
    ProcessMessage fuel r2 m1 w1 = Some (([m2], None), w2) /\
    m2 <> m1 /\ m2 <> msg /\ m1 <> msg /\
    Len m2 (store w2) = Some n /\
    view msg (store w2) = view msg (store w) /\
    view m1 (store w2) = view m1 (store w1).
Proof.
  intros Hwf Hlen Hf1 Hf2.
  destruct (ProcessMessage_wf fuel r1 msg w n Hwf Hlen Hf1)
    as (m1 & w1 & Hrun1 & Hm1 & Hwf1 & Hlen1 & Hall1).
  destruct (ProcessMessage_wf fuel r2 m1 w1 n Hwf1 Hlen1 Hf2)
    as (m2 & w2 & Hrun2 & Hm2 & Hwf2 & Hlen2 & Hall2).
  destruct (Len_handles msg (store w) n Hlen) as (hs & Hhs & _).
  destruct (Len_handles m1 (store w1) n Hlen1) as (hs1 & Hhs1 & _).
  assert (Hfresh : forall s m, is_Some (handles m s) -> m <> length (batches s)).
  { intros s m [h Hh] ->. unfold handles in Hh. apply lookup_lt_Some in Hh. lia. }
  assert (Hne1 : m1 <> msg).
  { intros ->. apply (Hfresh (store w) msg); [by eexists|done]. }
  assert (Hne21 : m2 <> m1).
  { intros Heq. apply (Hfresh (store w1) m1); [by eexists|congruence]. }
  assert (Hne2 : m2 <> msg).
  { intros Heq. apply (Hfresh (store w1) msg); [|congruence].
    destruct (Hall1 msg (not_eq_sym Hne1)) as [Hh _]. rewrite Hh. by eexists. }
  exists m1, w1, m2, w2. split; [done|]. split; [done|]. split; [done|].
  split; [done|]. split; [done|]. split; [done|]. split.
  - destruct (Hall2 msg (not_eq_sym Hne2)) as [_ ->].
    by destruct (Hall1 msg (not_eq_sym Hne1)) as [_ ->].
  - by destruct (Hall2 m1 (not_eq_sym Hne21)) as [_ ->].
Qed.

Lemma ProcessMessage_chain_witness :
  exists m1 w1 m2 w2,
    ProcessMessage 5 (scard_redis client_sets) 0%nat world1 = Some (([m1], None), w1) /\
    ProcessMessage 5 (scard_redis client_failing) m1 w1 = Some (([m2], None), w2) /\
    m2 <> m1 /\ m2 <> 0%nat /\ m1 <> 0%nat /\
    Len m2 (store w2) = Some 2%nat /\
    view 0%nat (store w2) = view 0%nat (store world1) /\
    view m1 (store w2) = view m1 (store w1).
Proof.
  apply (ProcessMessage_chain 5 (scard_redis client_sets) (scard_redis client_failing)
           0%nat world1 2%nat).
  - apply world1_wf.
  - reflexivity.
  - split; simpl; [unfold max_int64|]; lia.
  - split; simpl; [unfold max_int64|]; lia.
Defined.

(** ** What [NewRedis] returns *)

Lemma NewRedis_unfold (env : Env) (conf : Config) :
  (exists e, RetryPeriod (cRedis conf) <> "" /\
             ParseDuration env (RetryPeriod (cRedis conf)) = inr e /\
             NewRedis env conf
             = (None, Some (Errorf "failed to parse retry period string: " e))) \/
  (exists d, period_settled env conf d /\
             NewRedis env conf = NewRedis_rest env conf d).
Proof.
  unfold NewRedis, period_settled.
  destruct (RetryPeriod (cRedis conf)) as [|a s] eqn:Hp; simpl.
  - right. exists 0. split; [by left|done].
  - destruct (ParseDuration env (String a s)) as [d|e] eqn:Hd.
    + right. exists d. split; [by right|done].
    + left. exists e. done.
Qed.

Lemma period_settled_unique (env : Env) (conf : Config) (d1 d2 : Duration) :
  period_settled env conf d1 -> period_settled env conf d2 -> d1 = d2.
Proof. intros [[? ->]|[? H1]] [[? ->]|[? H2]]; congruence. Qed.

Lemma NewRedis_settled (env : Env) (conf : Config) (d : Duration) :
  period_settled env conf d -> NewRedis env conf = NewRedis_rest env conf d.
Proof.
  intros Hd. destruct (NewRedis_unfold env conf) as [(e & Hne & He & _)|(d' & Hd' & ->)].
  - destruct Hd as [[? _]|[_ ?]]; congruence.
  - by rewrite (period_settled_unique env conf d d').
Qed.

(** The fields of a processor that was constructed. *)
Lemma NewRedis_fields (env : Env) (conf0 : Config) (r : Redis) e :
  NewRedis env conf0 = (Some r, e) ->
  e = None /\
  exists d, period_settled env conf0 d /\
    bredis_Client env (RConfig (cRedis conf0)) = inl (client r) /\
    NewField env (Key (cRedis conf0)) = inl (key r) /\
    getRedisOperator (Operator (cRedis conf0)) = (Some (operator r), None) /\
    r = mkRedis (Parts (cRedis conf0)) conf0 (key r) (operator r) (client r) d
          "count" "error" "sent" "batch.sent" "redis.retry".
Proof.
  destruct (NewRedis_unfold env conf0) as [(e0 & _ & _ & ->)|(d & Hd & ->)]; [done|].
  unfold NewRedis_rest.
  destruct (bredis_Client env _) as [c|] eqn:Hc; [|done].
  destruct (NewField env _) as [k|] eqn:Hk; [|done].
  destruct (getRedisOperator _) as [[op|] [e'|]] eqn:Hop; try done.
  intros [= <- <-]. split; [done|]. exists d. simpl. done.
Qed.

(** X10: [NewRedis] returns a processor with a nil error or a nil
    processor with an error, never both and never neither.  The processor
    carries the configuration and its parts, the retry period that was
    settled, the client and key expression the collaborators made, the
    operator the configuration names, and the five counters ["count"],
    ["error"], ["sent"], ["batch.sent"] and ["redis.retry"]. *)
Theorem NewRedis_outcome (env : Env) (conf0 : Config) :
  (exists r d,
     NewRedis env conf0 = (Some r, None) /\
     period_settled env conf0 d /\
     bredis_Client env (RConfig (cRedis conf0)) = inl (client r) /\
     NewField env (Key (cRedis conf0)) = inl (key r) /\
     getRedisOperator (Operator (cRedis conf0)) = (Some (operator r), None) /\
     parts r = Parts (cRedis conf0) /\ conf r = conf0 /\ retryPeriod r = d /\
     [mCount r; mErr r; mSent r; mBatchSent r; mRedisRetry r]
       = ["count"; "error"; "sent"; "batch.sent"; "redis.retry"]) \/
  (exists e, NewRedis env conf0 = (None, Some e)).
Proof.
  destruct (NewRedis env conf0) as [[r|] e] eqn:Hnew.
  - left. apply NewRedis_fields in Hnew as (-> & d & Hd & Hc & Hk & Hop & Hr).
    exists r, d. split; [done|]. split; [done|]. split; [done|]. split; [done|].
    split; [done|]. rewrite Hr. simpl. done.
  - right. destruct e as [e|]; [by exists e|]. exfalso.
    destruct (NewRedis_unfold env conf0) as [(e0 & _ & _ & H)|(d & Hd & H)];
      rewrite H in Hnew; [done|].
    revert Hnew. unfold NewRedis_rest.
    destruct (bredis_Client env _) as [c|]; [|done].
    destruct (NewField env _) as [k|]; [|done].
    unfold getRedisOperator.
    destruct (String.eqb _ "sadd"); [done|]. by destruct (String.eqb _ "scard").
Qed.

(** X11: the order in which [NewRedis] fails.  A retry period that does
    not parse is reported whatever the other collaborators would answer: no
    client is created for it.  With the period settled, a failure of
    [Client()] is returned as it is; then a failure of the key expression,
    under the prefix of [NewRedis]; then an unknown operator name. *)
Theorem NewRedis_error_order (env : Env) (conf0 : Config) :
  (forall e, RetryPeriod (cRedis conf0) <> "" ->
     ParseDuration env (RetryPeriod (cRedis conf0)) = inr e ->
     forall mk_client new_field,
       NewRedis (mkEnv mk_client (ParseDuration env) new_field) conf0
       = (None, Some (Errorf "failed to parse retry period string: " e))) /\
  (forall d e, period_settled env conf0 d ->
     bredis_Client env (RConfig (cRedis conf0)) = inr e ->
     NewRedis env conf0 = (None, Some e)) /\
  (forall d c e, period_settled env conf0 d ->
     bredis_Client env (RConfig (cRedis conf0)) = inl c ->
     NewField env (Key (cRedis conf0)) = inr e ->
     NewRedis env conf0 = (None, Some (Errorf "failed to parse key expression: " e))) /\
  (forall d c k, period_settled env conf0 d ->
     bredis_Client env (RConfig (cRedis conf0)) = inl c ->
     NewField env (Key (cRedis conf0)) = inl k ->
     Operator (cRedis conf0) ∉ operator_options ->
     NewRedis env conf0
     = (None, Some (Errorf "operator not recognised: " (Operator (cRedis conf0))))).
Proof.
  split; [|split; [|split]].
  - intros e Hne He mk_client new_field. unfold NewRedis. simpl.
    destruct (RetryPeriod (cRedis conf0)) as [|a s]; [done|]. simpl. by rewrite He.
  - intros d e Hd Hc. rewrite (NewRedis_settled env conf0 d Hd).
    unfold NewRedis_rest. by rewrite Hc.
  - intros d c e Hd Hc Hk. rewrite (NewRedis_settled env conf0 d Hd).
    unfold NewRedis_rest. by rewrite Hc, Hk.
  - intros d c k Hd Hc Hk Hop. rewrite (NewRedis_settled env conf0 d Hd).
    unfold NewRedis_rest. rewrite Hc, Hk.
    unfold operator_options in Hop. rewrite !not_elem_of_cons in Hop.
    destruct Hop as (Hscard & Hsadd & _).
    by rewrite getRedisOperator_unknown.
Qed.

(** X12: the names the documentation of [init] offers for [operator] are
    exactly the names [getRedisOperator] accepts, and the default
    configuration names one of them. *)
Theorem documented_operators_accepted (name : string) (bc : bredis_Config) :
  (name ∈ operator_options <-> exists op, getRedisOperator name = (Some op, None)) /\
  Operator (NewRedisConfig bc) ∈ operator_options.
Proof.
  split; [|unfold operator_options; simpl; apply list_elem_of_here].
  unfold operator_options. rewrite !elem_of_cons. split.
  - intros [->|[->|H]]; [by exists OpSCard|by exists OpSAdd|by apply elem_of_nil in H].
  - intros [op Hop]. apply getRedisOperator_resolved in Hop as [_ [[-> _]|[-> _]]]; auto.
Qed.

(** X13: a processor that [NewRedis] built processes every well-formed
    message: one output message of the same length, a nil response, one
    more ["count"] and ["batch.sent"], as many more ["sent"] as the message
    has parts, and at most one more ["error"] per targeted part. *)
Theorem NewRedis_then_ProcessMessage (env : Env) (conf0 : Config) (r : Redis)
    (fuel : nat) (msg : Message) (w : World) (n : nat) :
  NewRedis env conf0 = (Some r, None) ->
  Retries (cRedis conf0) < max_int64 ->
  (Z.to_nat (Retries (cRedis conf0) + 1) < fuel)%nat ->
  wf_store (store w) -> Len msg (store w) = Some n ->
  exists newMsg w',
    ProcessMessage fuel r msg w = Some (([newMsg], None), w') /\
    Len newMsg (store w') = Some n /\
    counter w' "count" = counter w "count" + 1 /\
    counter w' "batch.sent" = counter w "batch.sent" + 1 /\
    counter w' "sent" = counter w "sent" + Z.of_nat n /\
    0 <= counter w' "error" - counter w "error"
      <= Z.of_nat (length (targeted (Parts (cRedis conf0)) n)).
Proof.
  intros Hnew HR Hfuel Hwf Hlen.
  apply NewRedis_fields in Hnew as (_ & d & _ & _ & _ & _ & Hr).
  assert (Hconf : conf r = conf0) by (by rewrite Hr).
  assert (Hparts : parts r = Parts (cRedis conf0)) by (by rewrite Hr).
  assert (Hnames : mCount r = "count" /\ mErr r = "error" /\ mSent r = "sent" /\
                   mBatchSent r = "batch.sent" /\ mRedisRetry r = "redis.retry")
    by (by rewrite Hr).
  destruct Hnames as (Hn1 & Hn2 & Hn3 & Hn4 & Hn5).
  assert (Hf : fuel_ok r fuel) by (unfold fuel_ok; by rewrite Hconf).
  destruct (ProcessMessage_other_counters fuel r msg w n Hwf Hlen Hf)
    as (newMsg & w3 & Hrun & Hkeep).
  destruct (ProcessMessage_run fuel r msg w n Hwf Hlen Hf)
    as (newMsg' & s1 & outs & w3' & w' & Hrun' & _ & _ & _ & _ & Hfst & _ & _ & _ & _
        & Hlen' & Hcnt & _).
  rewrite Hrun in Hrun'. injection Hrun' as <- <-.
  exists newMsg, (Incr (mSent r) (Z.of_nat n) (Incr (mBatchSent r) 1 w3)).
  split; [done|]. split; [done|].
  assert (Hdist : distinct_counters r).
  { unfold distinct_counters. rewrite Hn1, Hn2, Hn3, Hn4, Hn5. by repeat split. }
  specialize (Hcnt Hdist). rewrite Hn2 in Hcnt.
  rewrite Hn3, Hn4 in *. split; [|split; [|split]].
  - rewrite !counter_Incr_ne by done. rewrite Hkeep by (by rewrite ?Hn2, ?Hn5).
    by rewrite Hn1, counter_Incr_eq.
  - rewrite counter_Incr_ne by done. rewrite counter_Incr_eq.
    rewrite Hkeep by (by rewrite ?Hn2, ?Hn5). by rewrite Hn1, counter_Incr_ne.
  - rewrite counter_Incr_eq. rewrite counter_Incr_ne by done.
    rewrite Hkeep by (by rewrite ?Hn2, ?Hn5). by rewrite Hn1, counter_Incr_ne.
  - rewrite Hcnt. rewrite <- Hparts, <- Hfst, length_map.
    unfold count_failed. pose proof (List.filter_length_le
      (λ o : nat * option error, bool_decide (is_Some (snd o))) outs). lia.
Qed.

Lemma NewRedis_then_ProcessMessage_witness :
  exists r newMsg w',
    NewRedis sample_env default_conf = (Some r, None) /\
    ProcessMessage 5 r 0%nat world1 = Some (([newMsg], None), w') /\
    Len newMsg (store w') = Some 2%nat /\
    counter w' "sent" = counter world1 "sent" + Z.of_nat 2.
Proof.
  destruct (NewRedis sample_env default_conf) as [[r|] [e|]] eqn:Hnew;
    try (exfalso; vm_compute in Hnew; discriminate Hnew).
  destruct (NewRedis_then_ProcessMessage sample_env default_conf r 5 0%nat world1 2%nat)
    as (newMsg & w' & Hrun & Hlen & _ & _ & Hsent & _).
  - exact Hnew.
  - simpl. unfold max_int64. lia.
  - simpl. lia.
  - apply world1_wf.
  - reflexivity.
  - exists r, newMsg, w'. split; [reflexivity|]. split; [exact Hrun|].
    split; [exact Hlen|exact Hsent].
Defined.

(** ** The output registry, filled *)

(** X14: with the registry as it is declared, empty, [Construct] fails for
    every configuration, the default one of [NewConfig] included; after
    [constructors[name] = c] it hands configurations of type [name] to [c],
    replacing what was registered under that name, and treats every other
    type as before. *)
Theorem Construct_after_registration (OutputType ZMQ4Config : Type)
    (ErrInvalidOutputType : error) :
  (forall conf,
     output.Construct OutputType ZMQ4Config ErrInvalidOutputType
       (output_constructors OutputType ZMQ4Config) conf
     = (None, Some ErrInvalidOutputType)) /\
  (forall zmq4,
     output.Construct OutputType ZMQ4Config ErrInvalidOutputType
       (output_constructors OutputType ZMQ4Config) (output_NewConfig ZMQ4Config zmq4)
     = (None, Some ErrInvalidOutputType)) /\
  (forall reg name c conf,
     output.Construct OutputType ZMQ4Config ErrInvalidOutputType
       (output_register OutputType ZMQ4Config name c reg) conf
     = if decide (output.Type_ ZMQ4Config conf = name) then c conf
       else output.Construct OutputType ZMQ4Config ErrInvalidOutputType reg conf) /\
  (forall reg name c1 c2,
     output_register OutputType ZMQ4Config name c2
       (output_register OutputType ZMQ4Config name c1 reg)
     = output_register OutputType ZMQ4Config name c2 reg).
Proof.
  split; [|split; [|split]].
  - intros conf. unfold output.Construct, output_constructors, output.Constructors.
    by rewrite lookup_empty.
  - intros zmq4. unfold output.Construct, output_constructors, output.Constructors.
    by rewrite lookup_empty.
  - intros reg name c conf.
    unfold output.Construct, output_register, output.Constructors in *.
    destruct (decide (output.Type_ ZMQ4Config conf = name)) as [->|Hne].
    + by rewrite lookup_insert_eq.
    + by rewrite lookup_insert_ne.
  - intros reg name c1 c2. unfold output_register, output.Constructors in *.
    apply insert_insert_eq.
Qed.

(** ** The producer: set-up *)





(** ** The producer: the sending goroutine *)

Section Sender.

Variable env : producer.Env.
Variable g : producer.Running.

Let I := Z.max 0 (producer.interval g).

Lemma run_app (evs1 evs2 : list producer.Event) (st : producer.State) :
  producer.run env g (evs1 ++ evs2) st
  = producer.run env g evs2 (producer.run env g evs1 st).
Proof. unfold producer.run. apply fold_left_app. Qed.

(** A step preserves whatever the three kinds of change preserve. *)
Lemma run_invariant (P : producer.State -> Prop) :
  (forall ev st, P st -> P (producer.step env g ev st)) ->
  forall evs st, P st -> P (producer.run env g evs st).
Proof.
  intros Hstep evs. induction evs as [|ev evs IH]; intros st HP; [done|].
  simpl. apply IH. by apply Hstep.
Qed.

(** Once the flag is cleared, the messages sent plus the one that may be
    owed never grow. *)
Lemma stopped_step (ev : producer.Event) (st : producer.State) :
  producer.running st = false ->
  producer.running (producer.step env g ev st) = false /\
  (length (producer.sent (producer.step env g ev st))
   + producer.owed (producer.step env g ev st)
   <= length (producer.sent st) + producer.owed st)%nat.
Proof.
  intros Hstop. destruct st as [p b t s]. simpl in Hstop. subst b.
  destruct ev; unfold producer.step, producer.owed; simpl.
  - destruct p as [|remaining| |e]; simpl; [lia| |lia|lia].
    destruct (remaining <=? 0); [|simpl; lia].
    destruct (producer.MarshalBinary env t) as [nowBytes|]; [|simpl; lia].
    destruct (producer.SendMessage env _); simpl; [lia|].
    rewrite length_app. simpl. lia.
  - destruct p; simpl; lia.
  - lia.
Qed.

(** X17: after [main] has cleared the flag the goroutine sends at most
    one more message, whatever the schedule, and none at all unless it was
    already waiting for its interval. *)
Theorem at_most_one_message_after_stop (evs1 evs2 : list producer.Event)
    (st : producer.State) :
  let stopped := producer.run env g (evs1 ++ [producer.EvStop]) st in
  (length (producer.sent (producer.run env g evs2 stopped))
   <= length (producer.sent stopped) + producer.owed stopped)%nat /\
  (producer.owed stopped <= 1)%nat.
Proof.
  intros stopped. split.
  - assert (Hstop : producer.running stopped = false).
    { unfold stopped. by rewrite run_app. }
    assert (H : producer.running (producer.run env g evs2 stopped) = false /\
                (length (producer.sent (producer.run env g evs2 stopped))
                 + producer.owed (producer.run env g evs2 stopped)
                 <= length (producer.sent stopped) + producer.owed stopped)%nat).
    { apply (run_invariant
               (λ st0, producer.running st0 = false /\
                       (length (producer.sent st0) + producer.owed st0
                        <= length (producer.sent stopped) + producer.owed stopped)%nat)).
      - intros ev st0 [Hr Hle].
        destruct (stopped_step ev st0 Hr) as [Hr' Hle']. split; [done|lia].
      - split; [done|lia]. }
    lia.
  - unfold producer.owed. destruct (producer.pc stopped); lia.
Qed.


(** X19: the goroutine waits a full interval before each message: after
    any schedule, the messages sent so far account for no more than the
    time that has passed. *)
Theorem one_message_per_interval (evs : list producer.Event) :
  Z.of_nat (length (producer.sent (producer.run env g evs producer.start)))
    * Z.max 0 (producer.interval g)
  <= producer.now (producer.run env g evs producer.start).
Proof.
  assert (H : let st := producer.run env g evs producer.start in
              0 <= producer.waited g st /\
              Z.of_nat (length (producer.sent st)) * I + producer.waited g st
              <= producer.now st).
  { apply (run_invariant
             (λ st, 0 <= producer.waited g st /\
                    Z.of_nat (length (producer.sent st)) * I + producer.waited g st
                    <= producer.now st)).
    - intros ev [p b t s]. unfold producer.waited. simpl. fold I.
      intros [Hw Hle]. destruct ev; simpl.
      + destruct p as [|remaining| |e]; simpl.
        * destruct b; simpl; fold I; lia.
        * destruct (Z.leb_spec remaining 0); [|simpl; fold I; lia].
          destruct (producer.MarshalBinary env t) as [nowBytes|]; [|simpl; lia].
          destruct (producer.SendMessage env _); simpl; [lia|].
          rewrite length_app. simpl. lia.
        * lia.
        * lia.
      + destruct p; simpl; fold I; lia.
      + destruct p; simpl; fold I; lia.
    - unfold producer.waited. simpl. lia. }
  simpl in H. fold I. lia.
Qed.

Lemma exit_needs_stop (evs : list producer.Event) :
  forall st : producer.State,
    producer.running st = true -> producer.pc st <> producer.Exited ->
    producer.pc (producer.run env g evs st) = producer.Exited ->
    producer.EvStop ∈ evs.
Proof.
  induction evs as [|ev evs IH]; intros st Hb Hp Hexit; [done|].
  destruct st as [p b t s]. simpl in Hb, Hp. subst b.
  destruct ev; [| |apply list_elem_of_here]; apply list_elem_of_further.
  - refine (IH _ _ _ Hexit).
    + simpl. destruct p as [|remaining| |e]; simpl; [done| |done|done].
      destruct (remaining <=? 0); [|done].
      destruct (producer.MarshalBinary env t); [|done].
      by destruct (producer.SendMessage env _).
    + simpl. destruct p as [|remaining| |e]; simpl; [done| |done|done].
      destruct (remaining <=? 0); [|done].
      destruct (producer.MarshalBinary env t); [|done].
      by destruct (producer.SendMessage env _).
  - refine (IH _ _ _ Hexit); [done|]. simpl. by destruct p.
Qed.

(** X20: the goroutine leaves its loop only when the flag has been
    cleared: as long as [main] has not stopped it, it is at the load,
    asleep, or has crashed on an error of [MarshalBinary] or [SendMessage]. *)
Theorem sender_exits_only_when_stopped (evs : list producer.Event) :
  producer.pc (producer.run env g evs producer.start) = producer.Exited ->
  producer.running (producer.run env g evs producer.start) = false /\
  producer.EvStop ∈ evs.
Proof.
  intros Hexit.
  assert (Hin : producer.EvStop ∈ evs).
  { by apply (exit_needs_stop evs producer.start). }
  split; [|done].
  destruct (producer.running (producer.run env g evs producer.start)) eqn:Hr; [|done].
  exfalso. revert Hexit Hr.
  apply (run_invariant
           (λ st, producer.pc st = producer.Exited -> producer.running st = true -> False)).
  - intros ev [p b t s] HP. destruct ev; simpl.
    + destruct p as [|remaining| |e]; simpl.
      * destruct b; simpl; done.
      * destruct (remaining <=? 0); [|done].
        destruct (producer.MarshalBinary env t); [|done].
        by destruct (producer.SendMessage env _).
      * exact HP.
      * done.
    + destruct p; simpl; try done; exact HP.
    + done.
  - done.
Qed.

End Sender.

Lemma sender_exits_only_when_stopped_witness :
  producer.pc (producer.run producer_env producer_g
                 [producer.EvSender; producer.EvStop; producer.EvTick; producer.EvTick;
                  producer.EvSender; producer.EvSender] producer.start)
    = producer.Exited /\
  producer.running (producer.run producer_env producer_g
                      [producer.EvSender; producer.EvStop; producer.EvTick; producer.EvTick;
                       producer.EvSender; producer.EvSender] producer.start)
    = false /\
  producer.EvStop ∈ [producer.EvSender; producer.EvStop; producer.EvTick; producer.EvTick;
                     producer.EvSender; producer.EvSender].
Proof.
  split; [reflexivity|].
  apply (sender_exits_only_when_stopped producer_env producer_g). reflexivity.
Defined.

(** The producer started with ["2ns"] and ["3"]: the set-up yields the
    goroutine's data although [Connect] failed; stopped while it waits for
    its first interval, the goroutine still sends that one message, of a
    time stamp and the three-byte blob, and then leaves. *)
Example producer_run :
  producer.main_setup producer_env "producer" "tcp://localhost:1234" ["2ns"; "3"]
    = (producer.banner, inr producer_g) /\
  producer.dataBlob producer_g = ["255"%byte; "000"%byte; "001"%byte] /\
  producer.sent (producer.run producer_env producer_g
                   [producer.EvSender; producer.EvStop; producer.EvTick; producer.EvTick;
                    producer.EvSender; producer.EvSender; producer.EvSender] producer.start)
    = [[["002"%byte]; ["255"%byte; "000"%byte; "001"%byte]]] /\
  snd (producer.main_setup producer_env "producer" "tcp://localhost:1234" ["2ns"; "-1"])
    = inl (producer.Panic "runtime error: makeslice: len out of range").
Proof. repeat split; vm_compute; reflexivity. Qed.
